(** * Accessibility support of the Scintilla editing widget

    A shallow embedding of [Qt4Qt5/SciAccessibility.cpp]: the class
    [QsciAccessibleScintillaBase], which presents the text of a
    [QsciScintillaBase] widget to assistive technology.

    Integers of the source ([int], [long]) are read as [Z].  The values the
    adapter computes are positions of the document, counts of its characters,
    one more than such a value, or -1; the engine keeps its positions in an
    [int], so no addition of them leaves the range of [int].  The one sum
    taken of an argument is [offset + 1] in [attributes]: it is that of the
    source for every [offset] below [INT_MAX], the largest [int]. *)

From Stdlib Require Import ZArith List Bool Lia PeanoNat.
From Stdlib Require String Ascii DecimalString.
Import ListNotations.
Import String.StringSyntax.
Local Open Scope Z_scope.
Delimit Scope string_scope with string.

(** ** The toolkit's strings and byte arrays

    The toolkit is a library outside the repository.  Its strings, byte
    arrays and conversions are given here by their documented meaning:
    [fromUtf8] and [toUtf8] are the UTF-8 transformation between bytes and
    UTF-16 code units, [fromLatin1] and [toLatin1] the Latin-1 one.  The
    decoder [fromUtf8] leaves out a byte order mark that starts its input;
    the encoder [toUtf8] writes none of its own. *)

Module Qt.

(** A [QChar] is one UTF-16 code unit, a [QString] a sequence of them; a
    [QByteArray] is a sequence of bytes, each in [0, 255]. *)
Definition QChar := Z.
Definition QString := list QChar.
Definition QByteArray := list Z.

Record QPoint := mkQPoint { x : Z; y : Z }.

Definition is_high_surrogate (u : QChar) : bool := (0xD800 <=? u) && (u <? 0xDC00).
Definition is_low_surrogate (u : QChar) : bool := (0xDC00 <=? u) && (u <? 0xE000).
Definition is_surrogate (u : QChar) : bool := (0xD800 <=? u) && (u <? 0xE000).

Definition ReplacementCharacter : QChar := 0xFFFD.
Definition ByteOrderMark : QChar := 0xFEFF.
Definition question_mark : Z := 63.

(** [QString::fromLatin1(bytes, length)]: every byte is the code unit of the
    same value. *)
Definition fromLatin1 (bytes : QByteArray) : QString := bytes.

(** [QString::toLatin1()]: a code unit above 0xFF has no Latin-1 byte and is
    written as a question mark. *)
Definition toLatin1 (text : QString) : QByteArray :=
  map (fun u => if u <? 0x100 then u else question_mark) text.

(** [QString::toUtf8()].  The shifts and masks of the encoder are written as
    quotients and remainders by powers of two.  A surrogate pair is combined
    into one code point and written on four bytes; a surrogate that is not part
    of a pair is written as a question mark. *)
Fixpoint toUtf8 (text : QString) : QByteArray :=
  match text with
  | [] => []
  | u :: rest =>
      if u <? 0x80 then u :: toUtf8 rest
      else if u <? 0x800 then
        (0xC0 + u / 64) :: (0x80 + u mod 64) :: toUtf8 rest
      else if is_surrogate u then
        match rest with
        | l :: rest' =>
            if is_high_surrogate u && is_low_surrogate l then
              let cp := 0x10000 + (u - 0xD800) * 1024 + (l - 0xDC00) in
              (0xF0 + cp / 262144) :: (0x80 + (cp / 4096) mod 64)
                :: (0x80 + (cp / 64) mod 64) :: (0x80 + cp mod 64)
                :: toUtf8 rest'
            else question_mark :: toUtf8 rest
        | [] => [question_mark]
        end
      else
        (0xE0 + u / 4096) :: (0x80 + (u / 64) mod 64) :: (0x80 + u mod 64)
          :: toUtf8 rest
  end.

Definition is_continuation (b : Z) : bool := (0x80 <=? b) && (b <? 0xC0).

(** The code points that sequences of three and four bytes stand for. *)
Definition three_byte_value (b0 b1 b2 : Z) : Z :=
  (b0 - 0xE0) * 4096 + (b1 - 0x80) * 64 + (b2 - 0x80).

Definition four_byte_value (b0 b1 b2 b3 : Z) : Z :=
  (b0 - 0xF0) * 262144 + (b1 - 0x80) * 4096 + (b2 - 0x80) * 64 + (b3 - 0x80).

(** The decoder behind [QString::fromUtf8], [QUtf8::convertToUnicode], once
    it is past the start of its input.  A byte that does not start a
    well-formed sequence yields one replacement character and decoding goes on
    at the next byte. *)
Fixpoint convertToUnicode (bytes : QByteArray) : QString :=
  match bytes with
  | [] => []
  | b0 :: r0 =>
      if b0 <? 0x80 then b0 :: convertToUnicode r0
      else if (0xC2 <=? b0) && (b0 <? 0xE0) then
        match r0 with
        | b1 :: r1 =>
            if is_continuation b1
            then ((b0 - 0xC0) * 64 + (b1 - 0x80)) :: convertToUnicode r1
            else ReplacementCharacter :: convertToUnicode r0
        | _ => ReplacementCharacter :: convertToUnicode r0
        end
      else if (0xE0 <=? b0) && (b0 <? 0xF0) then
        match r0 with
        | b1 :: b2 :: r2 =>
            let cp := three_byte_value b0 b1 b2 in
            if is_continuation b1 && is_continuation b2
               && (0x800 <=? cp) && negb (is_surrogate cp)
            then cp :: convertToUnicode r2
            else ReplacementCharacter :: convertToUnicode r0
        | _ => ReplacementCharacter :: convertToUnicode r0
        end
      else if (0xF0 <=? b0) && (b0 <? 0xF5) then
        match r0 with
        | b1 :: b2 :: b3 :: r3 =>
            let cp := four_byte_value b0 b1 b2 b3 in
            if is_continuation b1 && is_continuation b2 && is_continuation b3
               && (0x10000 <=? cp) && (cp <? 0x110000)
            then (0xD800 + (cp - 0x10000) / 1024)
                   :: (0xDC00 + (cp - 0x10000) mod 1024) :: convertToUnicode r3
            else ReplacementCharacter :: convertToUnicode r0
        | _ => ReplacementCharacter :: convertToUnicode r0
        end
      else ReplacementCharacter :: convertToUnicode r0
  end.

(** The three bytes of the byte order mark U+FEFF in UTF-8, at the start of
    [bytes]. *)
Definition has_byte_order_mark (bytes : QByteArray) : bool :=
  match bytes with
  | b0 :: b1 :: b2 :: _ => (b0 =? 0xEF) && (b1 =? 0xBB) && (b2 =? 0xBF)
  | _ => false
  end.

(** [QString::fromUtf8(bytes, length)]: a byte order mark that starts the
    input is skipped, and the bytes after it are decoded. *)
Definition fromUtf8 (bytes : QByteArray) : QString :=
  if has_byte_order_mark bytes then convertToUnicode (skipn 3 bytes)
  else convertToUnicode bytes.

(** The string starts with the byte order mark. *)
Definition starts_with_mark (text : QString) : bool :=
  match text with
  | u :: _ => u =? ByteOrderMark
  | [] => false
  end.

(** The strings an encoding represents.  Latin-1 has a byte for each code unit
    up to 0xFF; UTF-8 has a sequence for every code point, that is for every
    string of code units in which surrogates only occur in pairs. *)
Definition latin1_representable (text : QString) : Prop :=
  Forall (fun u => 0 <= u < 0x100) text.

Inductive utf8_representable : QString -> Prop :=
  | utf8_nil : utf8_representable []
  | utf8_bmp u rest :
      0 <= u < 0x10000 -> is_surrogate u = false ->
      utf8_representable rest -> utf8_representable (u :: rest)
  | utf8_pair h l rest :
      is_high_surrogate h = true -> is_low_surrogate l = true ->
      utf8_representable rest -> utf8_representable (h :: l :: rest).

End Qt.

(** ** The editing widget and its engine *)

Module Sci.

Import Qt.

(** The messages of the engine that the adapter sends, by the names the
    source gives them. *)
Inductive Message :=
  | SCI_GETCURRENTPOS
  | SCI_GETCODEPAGE
  | SCI_POSITIONRELATIVE
  | SCI_POSITIONAFTER
  | SCI_POSITIONBEFORE
  | SCI_GETSELECTIONSTART
  | SCI_GETSELECTIONEND
  | SCI_GETTEXTRANGE
  | SCI_GETTEXTLENGTH
  | SCI_GETSTYLEAT
  | SCI_POSITIONFROMPOINT.

(** Modelled from the spec: the constant [SC_CP_UTF8] of the engine's header,
    which is not among the sources: the code page value that selects UTF-8. *)
Definition SC_CP_UTF8 : Z := 65001.

(** A [QsciScintillaBase] as the adapter sees it: the identity of the widget
    (its address), the answers of [SendScintilla(msg, wParam, lParam)] (the
    shorter overloads pass 0 for the parameters left out), the text-range
    overload [SendScintilla(msg, cpMin, cpMax, lpstrText)], which returns the
    caller's buffer as the engine leaves it, and the mapping of global to
    viewport coordinates of [viewport()->mapFromGlobal]. *)
Record QsciScintillaBase := mkWidget {
  address : nat;
  SendScintilla : Message -> Z -> Z -> Z;
  SendScintillaRange : Message -> Z -> Z -> QByteArray -> QByteArray;
  mapFromGlobal : QPoint -> QPoint
}.

(** A write of [a] at index [i] of an array. *)
Fixpoint assign {A : Type} (l : list A) (i : nat) (a : A) : list A :=
  match l, i with
  | [], _ => []
  | _ :: l', O => a :: l'
  | b :: l', S i' => b :: assign l' i' a
  end.

End Sci.

(** ** The conversions of the adapter *)

Module Acc.

Import Qt Sci.

(** Convert bytes to text. *)
Definition bytesAsText (sb : QsciScintillaBase) (bytes : QByteArray) : QString :=
  if SendScintilla sb SCI_GETCODEPAGE 0 0 =? SC_CP_UTF8
  then fromUtf8 bytes
  else fromLatin1 bytes.

(** Convert text to bytes. *)
Definition textAsBytes (sb : QsciScintillaBase) (text : QString) : QByteArray :=
  if SendScintilla sb SCI_GETCODEPAGE 0 0 =? SC_CP_UTF8
  then toUtf8 text
  else toLatin1 text.

(** Convert a byte position to a text position. *)
Definition positionAsTextPosition (sb : QsciScintillaBase) (position : Z) : Z :=
  SendScintilla sb SCI_POSITIONRELATIVE 0 position.

(** The loop of [textPositionAsPosition]: [n] more passes starting from
    [position]. *)
Fixpoint positionAfterTimes (sb : QsciScintillaBase) (n : nat) (position : Z) : Z :=
  match n with
  | O => position
  | S n' => positionAfterTimes sb n' (SendScintilla sb SCI_POSITIONAFTER position 0)
  end.

(** Convert a text position to a byte position.  The loop
    [for (p = 0; p < textPosition; ++p)] makes [textPosition] passes, none
    when [textPosition] is not positive. *)
Definition textPositionAsPosition (sb : QsciScintillaBase) (textPosition : Z) : Z :=
  positionAfterTimes sb (Z.to_nat textPosition) 0.

(** *** The accessible object and the class-wide state *)

(** One [QsciAccessibleScintillaBase]: the widget it was created for (the
    pointer [sciWidget()] returns) and its two data members. *)
Record QsciAccessibleScintillaBase := mkAccessible {
  sciWidget : nat;
  current_cursor_position : Z;
  is_selection : bool
}.

(** What [QAccessible::updateAccessibility] is handed. *)
Inductive Event :=
  | QAccessibleTextInsertEvent (object : nat) (position : Z) (text : QString)
  | QAccessibleTextRemoveEvent (object : nat) (position : Z) (text : QString)
  | QAccessibleTextCursorEvent (object : nat) (cursorPosition : Z).

(** The static members of the class together with the part of the toolkit's
    accessibility framework the class writes to.  [all_accessibles] holds the
    live objects in the order of the [QList]; a pointer to one of them is its
    place in the list.  [installed] counts the calls of
    [QAccessible::installFactory(factory)], [events] lists the events passed
    to [QAccessible::updateAccessibility], oldest first. *)
Record State := mkState {
  needs_initialising : bool;
  all_accessibles : list QsciAccessibleScintillaBase;
  installed : nat;
  events : list Event
}.

(** The state the static initialisers leave. *)
Definition initial : State :=
  {| needs_initialising := true; all_accessibles := [];
     installed := 0; events := [] |}.

(** The ctor, for the widget at address [widget]. *)
Definition construct (st : State) (widget : nat) : State :=
  {| needs_initialising := needs_initialising st;
     all_accessibles :=
       all_accessibles st
         ++ [ {| sciWidget := widget; current_cursor_position := -1;
                 is_selection := false |} ];
     installed := installed st;
     events := events st |}.

Fixpoint removeAt {A : Type} (l : list A) (i : nat) : list A :=
  match l, i with
  | [], _ => []
  | _ :: l', O => l'
  | a :: l', S i' => a :: removeAt l' i'
  end.

(** The dtor of the object at place [this]: [removeOne(this)]. *)
Definition destroy (st : State) (this : nat) : State :=
  {| needs_initialising := needs_initialising st;
     all_accessibles := removeAt (all_accessibles st) this;
     installed := installed st;
     events := events st |}.

(** Initialise the accessibility support. *)
Definition initialise (st : State) : State :=
  if needs_initialising st then
    {| needs_initialising := false;
       all_accessibles := all_accessibles st;
       installed := S (installed st);
       events := events st |}
  else st.

(** The loop of [findAccessible] over the objects from place [i] on. *)
Fixpoint findAccessible_from (l : list QsciAccessibleScintillaBase)
    (sb : QsciScintillaBase) (i : nat)
    : option (nat * QsciAccessibleScintillaBase) :=
  match l with
  | [] => None
  | acc_sb :: l' =>
      if Nat.eqb (sciWidget acc_sb) (address sb) then Some (i, acc_sb)
      else findAccessible_from l' sb (S i)
  end.

(** Find the accessible for a widget: its place and the object there, or
    [None] for the null pointer. *)
Definition findAccessible (st : State) (sb : QsciScintillaBase)
    : option (nat * QsciAccessibleScintillaBase) :=
  findAccessible_from (all_accessibles st) sb 0.

(** Update the accessible when the selection has changed. *)
Definition selectionChanged (st : State) (sb : QsciScintillaBase)
    (selection : bool) : State :=
  match findAccessible st sb with
  | None => st
  | Some (p, acc_sb) =>
      {| needs_initialising := needs_initialising st;
         all_accessibles :=
           assign (all_accessibles st) p
             {| sciWidget := sciWidget acc_sb;
                current_cursor_position := current_cursor_position acc_sb;
                is_selection := selection |};
         installed := installed st;
         events := events st |}
  end.

Definition updateAccessibility (st : State) (ev : Event) : State :=
  {| needs_initialising := needs_initialising st;
     all_accessibles := all_accessibles st;
     installed := installed st;
     events := events st ++ [ev] |}.

(** Update the accessibility when text has been inserted.  [text] stands for
    the [length] bytes at the (non-null) pointer [text]. *)
Definition textInserted (st : State) (sb : QsciScintillaBase) (position : Z)
    (text : QByteArray) : State :=
  let new_text := bytesAsText sb text in
  let text_position := positionAsTextPosition sb position in
  updateAccessibility st
    (QAccessibleTextInsertEvent (address sb) text_position new_text).

(** Update the accessibility when text has been deleted. *)
Definition textDeleted (st : State) (sb : QsciScintillaBase) (position : Z)
    (text : QByteArray) : State :=
  let old_text := bytesAsText sb text in
  let text_position := positionAsTextPosition sb position in
  updateAccessibility st
    (QAccessibleTextRemoveEvent (address sb) text_position old_text).

(** Update the accessibility when the UI has been updated. *)
Definition updated (st : State) (sb : QsciScintillaBase) : State :=
  match findAccessible st sb with
  | None => st
  | Some (p, acc_sb) =>
      let cursor_position :=
        positionAsTextPosition sb (SendScintilla sb SCI_GETCURRENTPOS 0 0) in
      if negb (current_cursor_position acc_sb =? cursor_position) then
        updateAccessibility
          {| needs_initialising := needs_initialising st;
             all_accessibles :=
               assign (all_accessibles st) p
                 {| sciWidget := sciWidget acc_sb;
                    current_cursor_position := cursor_position;
                    is_selection := is_selection acc_sb |};
             installed := installed st;
             events := events st |}
          (QAccessibleTextCursorEvent (address sb) cursor_position)
      else st
  end.

(** *** The text interface

    In the members below [this] is the object and [sb] the widget that its
    [sciWidget()] points to. *)

(** Get the current selection if any: the values written to [*startOffset]
    and [*endOffset]. *)
Definition selection (this : QsciAccessibleScintillaBase)
    (sb : QsciScintillaBase) (selectionIndex : Z) : Z * Z :=
  if (selectionIndex =? 0) && is_selection this then
    let start_position := SendScintilla sb SCI_GETSELECTIONSTART 0 0 in
    let end_position := SendScintilla sb SCI_GETSELECTIONEND 0 0 in
    (positionAsTextPosition sb start_position,
     positionAsTextPosition sb end_position)
  else (0, 0).

(** Return the number of selections. *)
Definition selectionCount (this : QsciAccessibleScintillaBase) : Z :=
  if is_selection this then 1 else 0.

(** Return the current cursor text position. *)
Definition cursorPosition (this : QsciAccessibleScintillaBase) : Z :=
  current_cursor_position this.

(** [QByteArray(size, ch)]. *)
Definition QByteArray_fill (size : Z) (ch : Z) : QByteArray :=
  repeat ch (Z.to_nat size).

(** Return the text between two positions. *)
Definition text (sb : QsciScintillaBase) (startOffset endOffset : Z) : QString :=
  let byte_start := textPositionAsPosition sb startOffset in
  let byte_end := textPositionAsPosition sb endOffset in
  let bytes := QByteArray_fill (byte_end - byte_start + 1) 0 in
  let filled := SendScintillaRange sb SCI_GETTEXTRANGE byte_start byte_end bytes in
  bytesAsText sb (firstn (Z.to_nat (Z.of_nat (length bytes) - 1)) filled).

(** Return the number of characters in the text. *)
Definition characterCount (sb : QsciScintillaBase) : Z :=
  positionAsTextPosition sb (SendScintilla sb SCI_GETTEXTLENGTH 0 0).

(** Return the offset of the character at the given screen coordinates. *)
Definition offsetAtPoint (sb : QsciScintillaBase) (point : QPoint) : Z :=
  let p := mapFromGlobal sb point in
  let position := SendScintilla sb SCI_POSITIONFROMPOINT (x p) (y p) in
  if 0 <=? position then positionAsTextPosition sb position else -1.

(** The first loop of [attributes]: find the start of the text with this
    style.  The source loops while [start_position > 0]; here the passes are
    counted, and [None] is the answer when [fuel] passes were not enough. *)
Fixpoint attributes_start (fuel : nat) (sb : QsciScintillaBase) (style : Z)
    (start_position start_text_position : Z) : option Z :=
  if 0 <? start_position then
    match fuel with
    | O => None
    | S fuel' =>
        let before := SendScintilla sb SCI_POSITIONBEFORE start_position 0 in
        let s := SendScintilla sb SCI_GETSTYLEAT before 0 in
        if negb (s =? style) then Some start_text_position
        else attributes_start fuel' sb style before (start_text_position - 1)
    end
  else Some start_text_position.

(** The second loop of [attributes]: find the end of the text with this
    style. *)
Fixpoint attributes_end (fuel : nat) (sb : QsciScintillaBase) (style : Z)
    (last_position end_position end_text_position : Z) : option Z :=
  if end_position <? last_position then
    match fuel with
    | O => None
    | S fuel' =>
        let s := SendScintilla sb SCI_GETSTYLEAT end_position 0 in
        if negb (s =? style) then Some end_text_position
        else attributes_end fuel' sb style last_position
               (SendScintilla sb SCI_POSITIONAFTER end_position 0)
               (end_text_position + 1)
    end
  else Some end_text_position.

(** The largest [int]. *)
Definition INT_MAX : Z := 2147483647.

(** Return the attributes of a character and surrounding text: the values
    written to [*startOffset] and [*endOffset].  The attribute string, which
    the source builds afterwards from the colours and the font of [style], has
    no part in them.  The source takes [offset + 1] in [int]: the definition
    is that of the source for an [offset] below [INT_MAX], and says nothing of
    the source at [INT_MAX], where the sum is not defined. *)
Definition attributes (fuel : nat) (sb : QsciScintillaBase) (offset : Z)
    : option (Z * Z) :=
  let position := textPositionAsPosition sb offset in
  let style := SendScintilla sb SCI_GETSTYLEAT position 0 in
  match attributes_start fuel sb style position offset with
  | None => None
  | Some startOffset =>
      let end_position := SendScintilla sb SCI_POSITIONAFTER position 0 in
      let last_position := SendScintilla sb SCI_GETTEXTLENGTH 0 0 in
      match attributes_end fuel sb style last_position end_position (offset + 1) with
      | None => None
      | Some endOffset => Some (startOffset, endOffset)
      end
  end.

End Acc.

(** ** The engine

    The text engine behind [SendScintilla] is not among the sources; the
    specification (sections 1 and 6) treats it as an external send-message
    protocol over byte offsets and a style buffer.  This module models the
    state of the engine and its answers to the messages the adapter sends,
    each with the meaning the protocol gives it. *)

Module Engine.

Import Qt Sci.

(** One byte of the document with its entry of the style buffer. *)
Record Cell := mkCell { cell_byte : Z; cell_style : Z }.

(** One character as the engine delimits it under its code page: a first
    byte and the bytes that follow it in the same character.  In a single-byte
    code page no character has following bytes. *)
Record Character := mkCharacter { lead : Cell; trail : list Cell }.

(** Modelled from the spec: the text engine that answers [SendScintilla] is
    not among the sources.  Section 6 of the specification fixes it as an
    external send-message protocol over byte offsets, with a text length in
    bytes, a style for each byte, selection bounds and a caret; the document
    below is that state, with the bytes grouped into the characters between
    which the engine places its positions.  [position_from_point] stands for
    the layout, which is not modelled. *)
Record Document := mkDocument {
  code_page : Z;
  characters : list Character;
  current_pos : Z;
  selection_start : Z;
  selection_end : Z;
  position_from_point : Z -> Z -> Z
}.

Definition cells_of (c : Character) : list Cell := lead c :: trail c.

Definition width (c : Character) : Z := Z.of_nat (length (cells_of c)).

Definition cells (cs : list Character) : list Cell := flat_map cells_of cs.

(** The length of the document in bytes. *)
Definition Length (cs : list Character) : Z := Z.of_nat (length (cells cs)).

(** Modelled from the spec: the engine's move of a position out of a
    character, forwards (the engine is not among the sources).  The result is
    the first position between characters that is not before [pos], the
    start of the document for a [pos] before it and its end for a [pos]
    after it. *)
Fixpoint MoveOutsideForward (cs : list Character) (pos : Z) : Z :=
  match cs with
  | [] => 0
  | c :: cs' =>
      if pos <=? 0 then 0
      else if pos <=? width c then width c
      else width c + MoveOutsideForward cs' (pos - width c)
  end.

(** Modelled from the spec: the same move backwards, to the last position
    between characters that is not after [pos]. *)
Fixpoint MoveOutsideBackward (cs : list Character) (pos : Z) : Z :=
  match cs with
  | [] => 0
  | c :: cs' =>
      if pos <? width c then 0
      else width c + MoveOutsideBackward cs' (pos - width c)
  end.

(** Modelled from the spec: the engine's position one character after
    ([0 < moveDir]) or before [pos]. *)
Definition NextPosition (cs : list Character) (pos moveDir : Z) : Z :=
  if 0 <? moveDir then MoveOutsideForward cs (pos + 1)
  else MoveOutsideBackward cs (pos - 1).

Definition INVALID_POSITION : Z := -1.

(** Modelled from the spec: [n] steps of one character from [pos] in the
    engine; a step that does not move has run into an end of the document. *)
Fixpoint RelativeSteps (cs : list Character) (n : nat) (increment pos : Z) : Z :=
  match n with
  | O => pos
  | S n' =>
      let posNext := NextPosition cs pos increment in
      if posNext =? pos then INVALID_POSITION
      else RelativeSteps cs n' increment posNext
  end.

(** Modelled from the spec: the engine's position [characterOffset] whole
    characters after (or, when negative, before) [positionStart]. *)
Definition GetRelativePosition (cs : list Character)
    (positionStart characterOffset : Z) : Z :=
  RelativeSteps cs (Z.abs_nat characterOffset)
    (if 0 <? characterOffset then 1 else -1) positionStart.

Definition Clamp (val minVal maxVal : Z) : Z :=
  let val := if maxVal <? val then maxVal else val in
  if val <? minVal then minVal else val.

(** Modelled from the spec: the engine's style of the byte at [pos], 0
    outside the document. *)
Definition StyleAt (cs : list Character) (pos : Z) : Z :=
  if (pos <? 0) || (Length cs <=? pos) then 0
  else nth (Z.to_nat pos) (map cell_style (cells cs)) 0.

(** Modelled from the spec: the bytes the engine copies for a range,
    [lengthRetrieve] bytes from [position], or none when the range is empty
    or not inside the document. *)
Definition GetCharRange (cs : list Character) (position lengthRetrieve : Z)
    : list Z :=
  if (lengthRetrieve <=? 0) || (position <? 0)
     || (Length cs <? position + lengthRetrieve)
  then []
  else firstn (Z.to_nat lengthRetrieve)
         (skipn (Z.to_nat position) (map cell_byte (cells cs))).

(** [data] copied to the start of [buffer]. *)
Definition copy_into (buffer data : list Z) : list Z :=
  data ++ skipn (length data) buffer.

(** Modelled from the spec: the answers of the engine (not among the sources)
    to the messages of the protocol of section 6.  A position after or before
    another, and a position a number of characters away, are positions
    between whole characters, not below 0 and not above the text length; a
    count of characters that runs past an end of the document is answered
    with 0. *)
Definition answer (d : Document) (msg : Message) (wParam lParam : Z) : Z :=
  let cs := characters d in
  match msg with
  | SCI_GETCURRENTPOS => current_pos d
  | SCI_GETCODEPAGE => code_page d
  | SCI_POSITIONRELATIVE =>
      Clamp (GetRelativePosition cs wParam lParam) 0 (Length cs)
  | SCI_POSITIONAFTER => MoveOutsideForward cs (wParam + 1)
  | SCI_POSITIONBEFORE => MoveOutsideBackward cs (wParam - 1)
  | SCI_GETSELECTIONSTART => selection_start d
  | SCI_GETSELECTIONEND => selection_end d
  | SCI_GETTEXTLENGTH => Length cs
  | SCI_GETSTYLEAT => StyleAt cs wParam
  | SCI_POSITIONFROMPOINT => position_from_point d wParam lParam
  | SCI_GETTEXTRANGE => 0
  end.

(** Modelled from the spec: the engine's answer (not among the sources) to a
    text-range query: the bytes from [cpMin] up to [cpMax] ([-1] for the end
    of the document) are copied to the buffer and a NUL is written after
    them. *)
Definition answerRange (d : Document) (msg : Message) (cpMin cpMax : Z)
    (lpstrText : QByteArray) : QByteArray :=
  let cs := characters d in
  match msg with
  | SCI_GETTEXTRANGE =>
      let cpMax := if cpMax =? -1 then Length cs else cpMax in
      let len := cpMax - cpMin in
      assign (copy_into lpstrText (GetCharRange cs cpMin len)) (Z.to_nat len) 0
  | _ => lpstrText
  end.

(** The widget at [address] whose engine holds [d]. *)
Definition widget (address : nat) (mapFromGlobal : QPoint -> QPoint)
    (d : Document) : QsciScintillaBase :=
  {| Sci.address := address;
     SendScintilla := answer d;
     SendScintillaRange := answerRange d;
     Sci.mapFromGlobal := mapFromGlobal |}.

(** Characters and documents for examples: a character of the single byte
    [b], a character of the bytes [b :: bs], each byte in style [style]; a
    document with the caret and an empty selection at its start. *)
Definition plain (style : Z) (b : Z) : Character :=
  {| lead := mkCell b style; trail := [] |}.

Definition multibyte (style : Z) (b : Z) (bs : list Z) : Character :=
  {| lead := mkCell b style; trail := map (fun t => mkCell t style) bs |}.

Definition document (code_page : Z) (cs : list Character) : Document :=
  {| code_page := code_page; characters := cs; current_pos := 0;
     selection_start := 0; selection_end := 0;
     position_from_point := fun _ _ => 0 |}.

End Engine.

(** ** Runs of the adapter and notions used to state its properties *)

Module Run.

Import Qt Sci Acc Engine.

(** One call that can change the state of the class: construction or
    destruction of an accessible, or one of the static entry points through
    which the widget reports.  The members of the text interface are [const]
    or only send messages to the engine; they leave the state as it is. *)
Inductive step (st : State) : State -> Prop :=
  | step_construct widget : step st (construct st widget)
  | step_destroy this : step st (destroy st this)
  | step_initialise : step st (initialise st)
  | step_selectionChanged sb selection :
      step st (selectionChanged st sb selection)
  | step_textInserted sb position text :
      step st (textInserted st sb position text)
  | step_textDeleted sb position text :
      step st (textDeleted st sb position text)
  | step_updated sb : step st (updated st sb).

Inductive reachable : State -> Prop :=
  | reachable_initial : reachable initial
  | reachable_step st st' : reachable st -> step st st' -> reachable st'.


(** The strings the encoding in use represents: the one [bytesAsText] and
    [textAsBytes] select from the code page. *)
Definition representable (sb : QsciScintillaBase) (text : QString) : Prop :=
  if SendScintilla sb SCI_GETCODEPAGE 0 0 =? SC_CP_UTF8
  then utf8_representable text
  else latin1_representable text.

(** The number of bytes before the character at place [k] of a document, the
    whole length for a [k] past its last character. *)
Definition bytes_before (cs : list Character) (k : nat) : nat :=
  length (cells (firstn k cs)).

(** The byte position of the character at place [k]. *)
Definition position_of (cs : list Character) (k : nat) : Z :=
  Z.of_nat (bytes_before cs k).

(** The style of the character at text position [t]: that of its first
    byte. *)
Definition character_style (cs : list Character) (t : Z) : option Z :=
  if t <? 0 then None
  else option_map (fun c => cell_style (lead c)) (nth_error cs (Z.to_nat t)).

(** The bytes of the characters at the text positions from [s] up to, and
    without, [e]. *)
Definition bytes_between (cs : list Character) (s e : Z) : QByteArray :=
  map cell_byte
    (cells (firstn (Z.to_nat e - Z.to_nat s) (skipn (Z.to_nat s) cs))).

(** The property of a style run [start, end) around [offset] in the document
    [cs] of the widget [sb]: it holds [offset], every character in it has the
    style of the one at [offset], and it cannot be extended: at the start it
    begins the document or follows a character of another style, at the end
    its byte position is the text length or the next character has another
    style. *)
Definition style_run (sb : QsciScintillaBase) (cs : list Character)
    (offset start end_ : Z) : Prop :=
  start <= offset < end_
  /\ (forall t, start <= t < end_ ->
        character_style cs t = character_style cs offset)
  /\ (start = 0
      \/ character_style cs (start - 1) <> character_style cs offset)
  /\ (textPositionAsPosition sb end_ = SendScintilla sb SCI_GETTEXTLENGTH 0 0
      \/ character_style cs end_ <> character_style cs offset).

(** Two documents used as examples: the three bytes of an e with acute accent
    followed by [a] in UTF-8, the first character on two bytes; and four
    single-byte characters, the first two in style 1 and the others in
    style 2. *)
Definition accented : Document :=
  document SC_CP_UTF8 [multibyte 1 0xC3 [0xA9]; plain 1 0x61].

Definition two_runs : Document :=
  document 0 [plain 1 0x61; plain 1 0x62; plain 2 0x63; plain 2 0x64].

(** The first of these documents with the selection from its start to the
    byte position [position], the caret there, and every point of the
    viewport at that position. *)
Definition accented_at (position : Z) : Document :=
  {| code_page := SC_CP_UTF8; characters := characters accented;
     current_pos := position; selection_start := 0; selection_end := position;
     position_from_point := fun _ _ => position |}.

(** A UTF-8 document of three characters: [a], the byte order mark U+FEFF on
    three bytes, and [b]. *)
Definition marked : Document :=
  document SC_CP_UTF8 [plain 1 0x61; multibyte 1 0xEF [0xBB; 0xBF]; plain 1 0x62].

Definition identity (p : QPoint) : QPoint := p.

End Run.

(** ** The toolkit's string literals and objects, and the factory *)

Module Toolkit.

Import Qt.

(** [QLatin1String("...")]: the code units of a string literal of the
    source. *)
Definition QLatin1String (s : String.string) : QString :=
  map (fun a => Z.of_N (Ascii.N_of_ascii a)) (String.list_ascii_of_string s).

(** [operator==] of strings: the same code units in the same order. *)
Fixpoint QString_eqb (a b : QString) : bool :=
  match a, b with
  | [], [] => true
  | u :: a', v :: b' => (u =? v) && QString_eqb a' b'
  | _, _ => false
  end.

(** A [QObject] as the factory sees it, behind a pointer that may be null. *)
Record QObject := mkObject { object_address : nat; isWidgetType : bool }.

End Toolkit.

Module Factory.

Import Qt Sci Acc Toolkit.

(** The accessibility interface factory: the state it leaves and the pointer
    it returns, [None] for null and otherwise the place of the new
    accessible. *)
Definition factory (st : State) (classname : QString) (object : option QObject)
    : State * option nat :=
  if QString_eqb classname (QLatin1String "QsciScintillaBase"%string)
  then match object with
       | Some o =>
           if isWidgetType o
           then (construct st (object_address o),
                 Some (length (all_accessibles st)))
           else (st, None)
       | None => (st, None)
       end
  else (st, None).

End Factory.

(** ** Documents whose characters are UTF-8 code points *)

Module Text.

Import Qt Engine.

(** The code units of one code point: a unit that is no surrogate, or a
    surrogate pair. *)
Inductive code_point : QString -> Prop :=
  | code_point_bmp u :
      0 <= u < 0x10000 -> is_surrogate u = false -> code_point [u]
  | code_point_pair h l :
      is_high_surrogate h = true -> is_low_surrogate l = true ->
      code_point [h; l].

(** The character [c] of a document holds the UTF-8 bytes of the code point
    [cp]. *)
Definition encodes (c : Character) (cp : QString) : Prop :=
  code_point cp /\ map cell_byte (cells_of c) = toUtf8 cp.

(** The code point is the byte order mark. *)
Definition is_byte_order_mark (cp : QString) : bool :=
  match cp with
  | [u] => u =? ByteOrderMark
  | _ => false
  end.

(** Code points without the byte order mark that starts them, if one does. *)
Definition without_leading_mark (cps : list QString) : list QString :=
  match cps with
  | cp :: rest => if is_byte_order_mark cp then rest else cps
  | [] => []
  end.

(** The code points at the text positions from [s] up to, and without,
    [e]. *)
Definition code_points_between (cps : list QString) (s e : Z) : list QString :=
  firstn (Z.to_nat e - Z.to_nat s) (skipn (Z.to_nat s) cps).

End Text.

(** ** The attribute string of a style *)

Module Attributes.

Import Qt Toolkit.

(** [QString::number(n)]: the decimal digits of [n], after a minus sign when
    it is negative. *)
Definition number (n : Z) : QString :=
  QLatin1String (DecimalString.NilZero.string_of_int (Z.to_int n)).

Definition percent : QChar := 37.

Definition is_digit (u : QChar) : bool := (48 <=? u) && (u <=? 57).

Definition digitValue (u : QChar) : Z := u - 48.

(** A string cut at its place markers: a marker is a percent sign followed by
    one or two digits and stands for their number; it is kept with its text. *)
Inductive Piece :=
  | Plain (u : QChar)
  | Marker (n : Z) (source : QString).

Fixpoint pieces (s : QString) : list Piece :=
  match s with
  | [] => []
  | u :: r =>
      if u =? percent then
        match r with
        | v :: r1 =>
            if is_digit v then
              match r1 with
              | w :: r2 =>
                  if is_digit w
                  then Marker (10 * digitValue v + digitValue w) [u; v; w]
                         :: pieces r2
                  else Marker (digitValue v) [u; v] :: pieces r1
              | [] => [Marker (digitValue v) [u; v]]
              end
            else Plain u :: pieces r
        | [] => [Plain u]
        end
      else Plain u :: pieces r
  end.

(** The lowest number among the markers, if there is a marker. *)
Fixpoint lowest (ps : list Piece) : option Z :=
  match ps with
  | [] => None
  | Plain _ :: ps' => lowest ps'
  | Marker n _ :: ps' =>
      match lowest ps' with
      | Some m => Some (Z.min n m)
      | None => Some n
      end
  end.

(** [QString::arg(a)]: every marker of the lowest number is replaced by [a];
    a string without markers is returned as it is. *)
Definition arg (s a : QString) : QString :=
  match lowest (pieces s) with
  | None => s
  | Some n =>
      flat_map (fun p => match p with
                         | Plain u => [u]
                         | Marker m source => if m =? n then a else source
                         end) (pieces s)
  end.

(** Convert a integer colour to an RGB string. *)
Definition colourAsRGB (colour : Z) : QString :=
  arg (arg (arg (QLatin1String "rgb(%1,%2,%3)"%string)
              (number (Z.land colour 0xff)))
         (number (Z.land (Z.shiftr colour 8) 0xff)))
    (number (Z.land (Z.shiftr colour 16) 0xff)).

(** Add an attribute name/value pair. *)
Definition addAttribute (attrs : QString) (name : String.string)
    (value : QString) : QString :=
  ((attrs ++ QLatin1String name) ++ [58]) ++ value ++ [59].

(** [QString::replace(before, after)] for a character [before]: every
    occurrence of it is replaced by the string [after]. *)
Definition replace (text : QString) (before : QChar) (after : QString) : QString :=
  flat_map (fun u => if u =? before then after else [u]) text.

(** The escaping of the font family in [attributes]: the six calls of
    [replace], in the order of the source. *)
Definition escape_family (family : QString) : QString :=
  let family := replace family 92 [92; 92] in
  let family := replace family 58 [92; 58] in
  let family := replace family 44 [92; 44] in
  let family := replace family 61 [92; 61] in
  let family := replace family 59 [92; 59] in
  let family := replace family 34 [92; 34] in
  family.

(** The characters the escaping concerns, and the reading of an escaped
    string: a backslash is dropped and the character after it kept. *)
Definition is_special (u : QChar) : bool :=
  (u =? 92) || (u =? 58) || (u =? 44) || (u =? 61) || (u =? 59) || (u =? 34).

Fixpoint unescape (s : QString) : QString :=
  match s with
  | [] => []
  | u :: r =>
      if u =? 92 then
        match r with
        | v :: r' => v :: unescape r'
        | [] => []
        end
      else u :: unescape r
  end.

(** A [QFont] as [attributes] reads it. *)
Inductive FontStyle := StyleNormal | StyleItalic | StyleOblique.

Record QFont := mkFont {
  family : QString;
  pointSize : Z;
  style : FontStyle;
  weight : Z
}.

(** [QFont::Normal], the weight above which a font counts as bold. *)
Definition Normal : Z := 50.

(** What [attributes] asks about a style: the answers of the engine to the
    style messages and the font [fontForStyle] builds for the style. *)
Record StyleAnswers := mkStyleAnswers {
  SCI_STYLEGETBACK : Z -> Z;
  SCI_STYLEGETFORE : Z -> Z;
  SCI_STYLEGETUNDERLINE : Z -> Z;
  fontForStyle : Z -> QFont
}.

(** The last part of [attributes]: convert the style to attributes. *)
Definition attributes_text (sb : StyleAnswers) (style_ : Z) : QString :=
  let attrs := [] in
  let back := SCI_STYLEGETBACK sb style_ in
  let attrs := addAttribute attrs "background-color"%string (colourAsRGB back) in
  let fore := SCI_STYLEGETFORE sb style_ in
  let attrs := addAttribute attrs "color"%string (colourAsRGB fore) in
  let font := fontForStyle sb style_ in
  let family := escape_family (family font) in
  let attrs := addAttribute attrs "font-familly"%string ([34] ++ family ++ [34]) in
  let font_size := pointSize font in
  let attrs :=
    addAttribute attrs "font-size"%string
      (arg (QLatin1String "%1pt"%string) (number font_size)) in
  let font_style := style font in
  let attrs :=
    addAttribute attrs "font-style"%string
      (QLatin1String
         (match font_style with
          | StyleItalic => "italic"
          | StyleOblique => "oblique"
          | StyleNormal => "normal"
          end)%string) in
  let font_weight := weight font in
  let attrs :=
    addAttribute attrs "font-weight"%string
      (QLatin1String (if Normal <? font_weight then "bold" else "normal")%string) in
  let underline := SCI_STYLEGETUNDERLINE sb style_ in
  if negb (underline =? 0)
  then addAttribute attrs "text-underline-type"%string (QLatin1String "single"%string)
  else attrs.

(** The entries of an attribute string as a client reads them: each ends at a
    semicolon that no backslash escapes. *)
Fixpoint entries_from (entry : QString) (s : QString) : list QString :=
  match s with
  | [] => []
  | u :: r =>
      if u =? 92 then
        match r with
        | v :: r' => entries_from (entry ++ [u; v]) r'
        | [] => []
        end
      else if u =? 59 then entry :: entries_from [] r
      else entries_from (entry ++ [u]) r
  end.

Definition entries (s : QString) : list QString := entries_from [] s.

(** A string without place marker, and a string in which nothing ends or
    escapes an entry. *)
Definition no_percent (s : QString) : Prop := Forall (fun u => u <> percent) s.

Definition safe (s : QString) : Prop := Forall (fun u => u <> 92 /\ u <> 59) s.

End Attributes.

(** ** The editing members *)

Module Edit.

Import Qt Sci Acc.

(** The messages that change the engine, with the parameters the adapter
    passes.  A text parameter is the NUL-terminated array a [const char *]
    points to. *)
Inductive Command :=
  | SCI_CLEARSELECTIONS
  | SCI_SETSELECTIONSTART (anchor : Z)
  | SCI_SETSELECTIONEND (caret : Z)
  | SCI_GOTOPOS (caret : Z)
  | SCI_SCROLLRANGE (secondary primary : Z)
  | SCI_REPLACESEL (text : QByteArray)
  | SCI_INSERTTEXT (pos : Z) (text : QByteArray).

(** An editing widget over time: its states, the answers it gives in a state
    and the state a message leaves.  The engine is a library of its own and
    what a message does to it is left open. *)
Record Editor := mkEditor {
  Widget : Type;
  look : Widget -> QsciScintillaBase;
  send : Widget -> Command -> Widget
}.

(** What the engine reads at the pointer [constData()] of a byte array: the
    bytes before the first NUL. *)
Fixpoint constData (bytes : QByteArray) : QByteArray :=
  match bytes with
  | [] => []
  | b :: rest => if b =? 0 then [] else b :: constData rest
  end.

Section Members.

Variable E : Editor.

(** Set the selection. *)
Definition setSelection (w : Widget E) (selectionIndex startOffset endOffset : Z)
    : Widget E :=
  if selectionIndex =? 0 then
    let w1 :=
      send E w (SCI_SETSELECTIONSTART
                  (textPositionAsPosition (look E w) startOffset)) in
    send E w1 (SCI_SETSELECTIONEND
                 (textPositionAsPosition (look E w1) endOffset))
  else w.

(** Add a selection. *)
Definition addSelection (w : Widget E) (startOffset endOffset : Z) : Widget E :=
  setSelection w 0 startOffset endOffset.

(** Remove a selection. *)
Definition removeSelection (w : Widget E) (selectionIndex : Z) : Widget E :=
  if selectionIndex =? 0 then send E w SCI_CLEARSELECTIONS else w.

(** Set the cursor position. *)
Definition setCursorPosition (w : Widget E) (position : Z) : Widget E :=
  send E w (SCI_GOTOPOS (textPositionAsPosition (look E w) position)).

(** Scroll to make sure an area of text is visible. *)
Definition scrollToSubstring (w : Widget E) (startIndex endIndex : Z) : Widget E :=
  let start := textPositionAsPosition (look E w) startIndex in
  let end_ := textPositionAsPosition (look E w) endIndex in
  send E w (SCI_SCROLLRANGE end_ start).

(** Delete some text.  The text parameter is the literal of no characters. *)
Definition deleteText (w : Widget E) (startOffset endOffset : Z) : Widget E :=
  send E (addSelection w startOffset endOffset) (SCI_REPLACESEL []).

(** Insert some text. *)
Definition insertText (w : Widget E) (offset : Z) (text : QString) : Widget E :=
  send E w
    (SCI_INSERTTEXT (textPositionAsPosition (look E w) offset)
       (constData (textAsBytes (look E w) text))).

(** Replace some text. *)
Definition replaceText (w : Widget E) (startOffset endOffset : Z)
    (text : QString) : Widget E :=
  let w1 := addSelection w startOffset endOffset in
  send E w1 (SCI_REPLACESEL (constData (textAsBytes (look E w1) text))).

End Members.

(** An editor that keeps the messages it was sent, newest first, and answers
    as a fixed widget. *)
Definition recorder (sb : QsciScintillaBase) : Editor :=
  {| Widget := list Command;
     look := fun _ => sb;
     send := fun sent command => command :: sent |}.

End Edit.

(** * Properties *)

Import Qt Sci Acc Engine Run Text.

(** ** The codecs *)

Ltac arith := Z.div_mod_to_equations; lia.

Ltac settle_tests :=
  repeat match goal with
  | |- context [?a <? ?b] =>
      first [ rewrite (proj2 (Z.ltb_lt a b)) by arith
            | rewrite (proj2 (Z.ltb_ge a b)) by arith ]
  | |- context [?a <=? ?b] =>
      first [ rewrite (proj2 (Z.leb_le a b)) by arith
            | rewrite (proj2 (Z.leb_gt a b)) by arith ]
  end.

Lemma convertToUnicode_one b r : b < 0x80 -> convertToUnicode (b :: r) = b :: convertToUnicode r.
Proof. intros H. cbn [convertToUnicode]. settle_tests. reflexivity. Qed.

Lemma convertToUnicode_two b0 b1 r :
  0xC2 <= b0 < 0xE0 -> 0x80 <= b1 < 0xC0 ->
  convertToUnicode (b0 :: b1 :: r) = ((b0 - 0xC0) * 64 + (b1 - 0x80)) :: convertToUnicode r.
Proof.
  intros H0 H1. cbn [convertToUnicode]. unfold is_continuation. settle_tests. reflexivity.
Qed.

Lemma convertToUnicode_three b0 b1 b2 r :
  0xE0 <= b0 < 0xF0 -> 0x80 <= b1 < 0xC0 -> 0x80 <= b2 < 0xC0 ->
  0x800 <= three_byte_value b0 b1 b2 ->
  is_surrogate (three_byte_value b0 b1 b2) = false ->
  convertToUnicode (b0 :: b1 :: b2 :: r) = three_byte_value b0 b1 b2 :: convertToUnicode r.
Proof.
  intros H0 H1 H2 Hcp Hs. cbn [convertToUnicode]. cbv zeta. rewrite Hs.
  unfold is_continuation. settle_tests. reflexivity.
Qed.

Lemma convertToUnicode_four b0 b1 b2 b3 r :
  0xF0 <= b0 < 0xF5 -> 0x80 <= b1 < 0xC0 -> 0x80 <= b2 < 0xC0 ->
  0x80 <= b3 < 0xC0 ->
  0x10000 <= four_byte_value b0 b1 b2 b3 < 0x110000 ->
  convertToUnicode (b0 :: b1 :: b2 :: b3 :: r)
  = (0xD800 + (four_byte_value b0 b1 b2 b3 - 0x10000) / 1024)
    :: (0xDC00 + (four_byte_value b0 b1 b2 b3 - 0x10000) mod 1024)
    :: convertToUnicode r.
Proof.
  intros H0 H1 H2 H3 Hcp. cbn [convertToUnicode]. cbv zeta.
  unfold is_continuation. settle_tests. reflexivity.
Qed.

Lemma three_byte_value_encoded u :
  0 <= u ->
  three_byte_value (0xE0 + u / 4096) (0x80 + (u / 64) mod 64) (0x80 + u mod 64)
  = u.
Proof. intros H. unfold three_byte_value. arith. Qed.

Lemma four_byte_value_encoded cp :
  0 <= cp ->
  four_byte_value (0xF0 + cp / 262144) (0x80 + (cp / 4096) mod 64)
    (0x80 + (cp / 64) mod 64) (0x80 + cp mod 64)
  = cp.
Proof. intros H. unfold four_byte_value. arith. Qed.

Lemma convertToUnicode_toUtf8 text :
  utf8_representable text -> convertToUnicode (toUtf8 text) = text.
Proof.
  induction 1 as [ | u rest Hu Hs _ IH | h l rest Hh Hl _ IH ].
  - reflexivity.
  - cbn [toUtf8]. rewrite Hs.
    destruct (Z.ltb_spec u 0x80); [ | destruct (Z.ltb_spec u 0x800) ].
    + rewrite convertToUnicode_one by lia. now rewrite IH.
    + rewrite convertToUnicode_two by arith. rewrite IH. f_equal. arith.
    + rewrite convertToUnicode_three;
        rewrite ?three_byte_value_encoded by lia; try assumption; try arith.
      now rewrite IH.
  - cbn [toUtf8].
    assert (Hs : is_surrogate h = true)
      by (unfold is_surrogate, is_high_surrogate in *; lia).
    rewrite Hs, Hh, Hl. cbn [andb].
    unfold is_high_surrogate in Hh. unfold is_low_surrogate in Hl.
    settle_tests. cbv zeta.
    set (cp := 65536 + (h - 55296) * 1024 + (l - 56320)).
    assert (Hcp : 0x10000 <= cp < 0x110000) by (subst cp; lia).
    rewrite convertToUnicode_four;
      rewrite ?four_byte_value_encoded by lia; try assumption; try arith.
    rewrite IH. subst cp. f_equal; [ arith | f_equal; arith ].
Qed.

Lemma toUtf8_bmp u rest :
  is_surrogate u = false -> toUtf8 (u :: rest) = toUtf8 [u] ++ toUtf8 rest.
Proof.
  intros Hs. cbn [toUtf8]. rewrite Hs.
  destruct (u <? 0x80); [ reflexivity | ]. now destruct (u <? 0x800).
Qed.

Lemma toUtf8_pair h l rest :
  is_high_surrogate h = true -> is_low_surrogate l = true ->
  toUtf8 (h :: l :: rest) = toUtf8 [h; l] ++ toUtf8 rest.
Proof.
  intros Hh Hl. cbn [toUtf8].
  assert (Hs : is_surrogate h = true)
    by (unfold is_surrogate, is_high_surrogate in *; lia).
  rewrite Hs, Hh, Hl. cbn [andb].
  unfold is_high_surrogate in Hh. settle_tests. reflexivity.
Qed.

(** The encoder writes the three bytes of the mark for the mark alone. *)
Lemma has_byte_order_mark_bmp u r :
  0 <= u < 0x10000 -> is_surrogate u = false ->
  has_byte_order_mark (toUtf8 [u] ++ r) = (u =? ByteOrderMark).
Proof.
  intros Hu Hs. cbn [toUtf8]. rewrite Hs. unfold ByteOrderMark.
  destruct (Z.ltb_spec u 0x80) as [ Hlow | Hlow ];
    [ | destruct (Z.ltb_spec u 0x800) as [ Hmid | Hmid ] ];
    cbn [app has_byte_order_mark].
  - rewrite (proj2 (Z.eqb_neq u 0xFEFF)) by lia.
    destruct r as [ | b1 [ | b2 r ] ]; try reflexivity.
    now rewrite (proj2 (Z.eqb_neq u 0xEF)) by lia.
  - rewrite (proj2 (Z.eqb_neq u 0xFEFF)) by lia.
    destruct r as [ | b2 r ]; try reflexivity.
    now rewrite (proj2 (Z.eqb_neq (0xC0 + u / 64) 0xEF)) by arith.
  - destruct (Z.eqb_spec u 0xFEFF) as [ -> | Hne ]; [ reflexivity | ].
    apply andb_false_iff.
    destruct (Z.eqb_spec (0xE0 + u / 4096) 0xEF) as [ Hb0 | Hb0 ];
      [ | left; apply andb_false_iff; now left ].
    destruct (Z.eqb_spec (0x80 + (u / 64) mod 64) 0xBB) as [ Hb1 | Hb1 ];
      [ | left; apply andb_false_iff; now right ].
    right. apply Z.eqb_neq. intros Hb2. apply Hne. arith.
Qed.

Lemma has_byte_order_mark_pair h l r :
  is_high_surrogate h = true -> is_low_surrogate l = true ->
  has_byte_order_mark (toUtf8 [h; l] ++ r) = false.
Proof.
  intros Hh Hl. cbn [toUtf8].
  assert (Hs : is_surrogate h = true)
    by (unfold is_surrogate, is_high_surrogate in *; lia).
  rewrite Hs, Hh, Hl. cbn [andb].
  unfold is_high_surrogate in Hh. unfold is_low_surrogate in Hl.
  settle_tests. cbv zeta. cbn [app has_byte_order_mark].
  rewrite (proj2 (Z.eqb_neq _ 0xEF)) by arith. reflexivity.
Qed.

Lemma fromUtf8_toUtf8 text :
  utf8_representable text ->
  fromUtf8 (toUtf8 text) = if starts_with_mark text then tl text else text.
Proof.
  intros Hrep. unfold fromUtf8.
  destruct Hrep as [ | u rest Hu Hs Hrest | h l rest Hh Hl Hrest ].
  - reflexivity.
  - rewrite toUtf8_bmp by exact Hs.
    rewrite has_byte_order_mark_bmp by assumption. cbn [starts_with_mark tl].
    destruct (Z.eqb_spec u ByteOrderMark) as [ -> | Hne ].
    + cbn [toUtf8 app skipn]. now apply convertToUnicode_toUtf8.
    + rewrite <- toUtf8_bmp by exact Hs.
      apply convertToUnicode_toUtf8. now constructor.
  - rewrite toUtf8_pair by assumption.
    rewrite has_byte_order_mark_pair by assumption.
    rewrite <- toUtf8_pair by assumption.
    assert (Hmark : starts_with_mark (h :: l :: rest) = false).
    { cbn [starts_with_mark]. unfold is_high_surrogate, ByteOrderMark in *.
      apply Z.eqb_neq. lia. }
    rewrite Hmark. apply convertToUnicode_toUtf8. now constructor.
Qed.

Lemma convertToUnicode_code_point cp r :
  code_point cp -> convertToUnicode (toUtf8 cp ++ r) = cp ++ convertToUnicode r.
Proof.
  intros [ u Hu Hs | h l Hh Hl ].
  - cbn [toUtf8]. rewrite Hs.
    destruct (Z.ltb_spec u 0x80); [ | destruct (Z.ltb_spec u 0x800) ]; cbn [app].
    + now rewrite convertToUnicode_one by lia.
    + rewrite convertToUnicode_two by arith. f_equal. arith.
    + rewrite convertToUnicode_three;
        rewrite ?three_byte_value_encoded by lia; try assumption; try arith.
      reflexivity.
  - cbn [toUtf8].
    assert (Hs : is_surrogate h = true)
      by (unfold is_surrogate, is_high_surrogate in *; lia).
    rewrite Hs, Hh, Hl. cbn [andb].
    unfold is_high_surrogate in Hh. unfold is_low_surrogate in Hl.
    settle_tests. cbv zeta. cbn [app].
    set (v := 65536 + (h - 55296) * 1024 + (l - 56320)).
    assert (Hv : 0x10000 <= v < 0x110000) by (subst v; lia).
    rewrite convertToUnicode_four;
      rewrite ?four_byte_value_encoded by lia; try assumption; try arith.
    subst v. f_equal; [ arith | f_equal; arith ].
Qed.

Lemma has_byte_order_mark_code_point cp r :
  code_point cp ->
  has_byte_order_mark (toUtf8 cp ++ r) = is_byte_order_mark cp.
Proof.
  intros [ u Hu Hs | h l Hh Hl ].
  - now apply has_byte_order_mark_bmp.
  - now apply has_byte_order_mark_pair.
Qed.

Lemma fromLatin1_toLatin1 text :
  latin1_representable text -> fromLatin1 (toLatin1 text) = text.
Proof.
  unfold fromLatin1, toLatin1. induction 1 as [ | u rest Hu _ IH ]; cbn [map].
  - reflexivity.
  - rewrite IH. settle_tests. reflexivity.
Qed.

(** C3, as the code has it.  The conversion between bytes and text follows
    the code page of the engine: when the code page is [SC_CP_UTF8],
    [bytesAsText] decodes and [textAsBytes] encodes UTF-8; for any other code
    page both use Latin-1.  A string that the encoding in use represents is
    returned unchanged by [textAsBytes] followed by [bytesAsText], unless the
    code page is [SC_CP_UTF8] and the string starts with the byte order mark
    U+FEFF: then it is returned without this first mark. *)
Theorem conversion_round_trip (sb : QsciScintillaBase) :
  (SendScintilla sb SCI_GETCODEPAGE 0 0 = SC_CP_UTF8 ->
     (forall bytes, bytesAsText sb bytes = fromUtf8 bytes)
     /\ (forall text, textAsBytes sb text = toUtf8 text))
  /\ (SendScintilla sb SCI_GETCODEPAGE 0 0 <> SC_CP_UTF8 ->
        (forall bytes, bytesAsText sb bytes = fromLatin1 bytes)
        /\ (forall text, textAsBytes sb text = toLatin1 text))
  /\ (forall text,
        representable sb text ->
        SendScintilla sb SCI_GETCODEPAGE 0 0 <> SC_CP_UTF8
        \/ starts_with_mark text = false ->
        bytesAsText sb (textAsBytes sb text) = text)
  /\ (forall text,
        representable sb text ->
        SendScintilla sb SCI_GETCODEPAGE 0 0 = SC_CP_UTF8 ->
        bytesAsText sb (textAsBytes sb (ByteOrderMark :: text)) = text).
Proof.
  unfold bytesAsText, textAsBytes, representable.
  destruct (Z.eqb_spec (SendScintilla sb SCI_GETCODEPAGE 0 0) SC_CP_UTF8) as [ He | Hne ].
  - repeat split; try contradiction.
    + intros text Hrep [ Hcp | Hmark ]; [ contradiction | ].
      rewrite fromUtf8_toUtf8 by exact Hrep. now rewrite Hmark.
    + intros text Hrep _.
      rewrite fromUtf8_toUtf8 by (apply utf8_bmp; [ cbv; split; congruence | reflexivity | exact Hrep ]).
      cbn [starts_with_mark tl]. now rewrite Z.eqb_refl.
  - repeat split; try contradiction.
    intros text Hrep _. now apply fromLatin1_toLatin1.
Qed.

Lemma conversion_round_trip_witness :
  bytesAsText (widget 7 identity accented)
    (textAsBytes (widget 7 identity accented) [0xE9; 0x20AC; 0xD83D; 0xDE00])
  = [0xE9; 0x20AC; 0xD83D; 0xDE00].
Proof.
  apply (proj1 (proj2 (proj2 (conversion_round_trip (widget 7 identity accented))))).
  - unfold representable. cbn.
    apply utf8_bmp; [ lia | reflexivity | ].
    apply utf8_bmp; [ lia | reflexivity | ].
    apply utf8_pair; [ reflexivity | reflexivity | ].
    apply utf8_nil.
  - right. reflexivity.
Defined.

(** C3, as the claim states it, fails: under the UTF-8 code page the string
    of the byte order mark and the letter a is representable, and comes back
    as the letter alone. *)
Lemma conversion_round_trip_drops_mark :
  representable (widget 7 identity accented) [0xFEFF; 0x61]
  /\ bytesAsText (widget 7 identity accented)
       (textAsBytes (widget 7 identity accented) [0xFEFF; 0x61])
     <> [0xFEFF; 0x61].
Proof.
  split.
  - unfold representable. cbn.
    apply utf8_bmp; [ lia | reflexivity | ].
    apply utf8_bmp; [ lia | reflexivity | ].
    apply utf8_nil.
  - cbn. discriminate.
Qed.

(** ** The conversions of positions, for any engine *)

(** C8.  A text position that is not positive is converted to the byte
    position 0, whatever the engine answers. *)
Theorem textPositionAsPosition_nonpositive (sb : QsciScintillaBase)
    (textPosition : Z) :
  textPosition <= 0 -> textPositionAsPosition sb textPosition = 0.
Proof.
  intros H. unfold textPositionAsPosition.
  replace (Z.to_nat textPosition) with O by lia. reflexivity.
Qed.

Lemma textPositionAsPosition_nonpositive_witness :
  textPositionAsPosition (widget 7 identity accented) (-5) = 0.
Proof. apply textPositionAsPosition_nonpositive. lia. Defined.

(** ** The class-wide state *)

Lemma findAccessible_from_Some l sb : forall i p acc,
  findAccessible_from l sb i = Some (p, acc) ->
  (i <= p)%nat /\ nth_error l (p - i) = Some acc /\ sciWidget acc = address sb.
Proof.
  induction l as [ | a l IH ]; intros i p acc H; cbn [findAccessible_from] in H.
  - discriminate.
  - destruct (Nat.eqb_spec (sciWidget a) (address sb)) as [ He | Hne ].
    + injection H as <- <-. rewrite Nat.sub_diag. auto.
    + apply IH in H. destruct H as (Hle & Hnth & Hw).
      repeat split; [ lia | | exact Hw ].
      replace (p - i)%nat with (S (p - S i)) by lia. exact Hnth.
Qed.

Lemma findAccessible_Some st sb p acc :
  findAccessible st sb = Some (p, acc) ->
  nth_error (all_accessibles st) p = Some acc /\ sciWidget acc = address sb.
Proof.
  intros H. apply findAccessible_from_Some in H. destruct H as (_ & Hnth & Hw).
  now rewrite Nat.sub_0_r in Hnth.
Qed.

Lemma findAccessible_from_None l sb i :
  findAccessible_from l sb i = None <->
  (forall acc, In acc l -> sciWidget acc <> address sb).
Proof.
  revert i. induction l as [ | a l IH ]; intros i; cbn [findAccessible_from].
  - split; [ intros _ acc [] | reflexivity ].
  - destruct (Nat.eqb_spec (sciWidget a) (address sb)) as [ He | Hne ].
    + split; [ discriminate | ]. intros H. exfalso. now apply (H a); [ left | ].
    + rewrite IH. split.
      * intros H acc [ <- | Hin ]; auto.
      * intros H acc Hin. apply H. now right.
Qed.

Lemma map_assign {A B} (f : A -> B) (l : list A) p a b :
  nth_error l p = Some b -> f a = f b -> map f (assign l p a) = map f l.
Proof.
  revert p. induction l as [ | c l IH ]; intros p H E.
  - reflexivity.
  - destruct p as [ | p ]; cbn [assign nth_error map] in *.
    + injection H as ->. now rewrite E.
    + f_equal. now apply IH.
Qed.

Lemma findAccessible_from_assign l sb a : forall i p acc,
  findAccessible_from l sb i = Some (p, acc) -> sciWidget a = sciWidget acc ->
  findAccessible_from (assign l (p - i) a) sb i = Some (p, a).
Proof.
  induction l as [ | b l IH ]; intros i p acc H Hw; cbn [findAccessible_from] in H.
  - discriminate.
  - destruct (Nat.eqb_spec (sciWidget b) (address sb)) as [ He | Hne ].
    + injection H as <- <-. rewrite Nat.sub_diag. cbn [assign findAccessible_from].
      rewrite Hw, He, Nat.eqb_refl. reflexivity.
    + pose proof (findAccessible_from_Some _ _ _ _ _ H) as (Hle & _ & _).
      replace (p - i)%nat with (S (p - S i)) by lia.
      cbn [assign findAccessible_from].
      rewrite (proj2 (Nat.eqb_neq _ _) Hne). now apply IH with acc.
Qed.








(** C10.  For a widget that has no accessible in [all_accessibles],
    [findAccessible] returns the null pointer, and [selectionChanged] and
    [updated] return the state they were given: no event is emitted and no
    accessible is modified. *)
Theorem unregistered_widget_no_op (st : State) (sb : QsciScintillaBase)
    (selection : bool) :
  (forall acc, In acc (all_accessibles st) -> sciWidget acc <> address sb) ->
  findAccessible st sb = None
  /\ selectionChanged st sb selection = st
  /\ updated st sb = st.
Proof.
  intros H. apply (findAccessible_from_None _ sb O) in H.
  unfold selectionChanged, updated, findAccessible. rewrite H. auto.
Qed.

Lemma unregistered_widget_no_op_witness :
  findAccessible (construct initial 1) (widget 2 identity accented) = None
  /\ selectionChanged (construct initial 1) (widget 2 identity accented) true
     = construct initial 1
  /\ updated (construct initial 1) (widget 2 identity accented)
     = construct initial 1.
Proof.
  apply unregistered_widget_no_op.
  intros acc [ <- | [] ]. cbn. lia.
Defined.

Lemma nth_error_assign_other {A} (l : list A) p q a :
  q <> p -> nth_error (assign l p a) q = nth_error l q.
Proof.
  revert p q. induction l as [ | b l IH ]; intros p q Hne.
  - now destruct p.
  - destruct p as [ | p ], q as [ | q ]; cbn [assign nth_error];
      try reflexivity; try contradiction.
    apply IH. congruence.
Qed.

(** C4, as the code has it.  [cursorPosition] returns the member
    [current_cursor_position], a copy kept by the adapter.  The constructor
    appends an accessible in which it is -1.  A call of [updated] for a
    widget leaves, in the accessible [findAccessible] returns for it, the
    text position of the engine's caret at that call, and leaves every other
    accessible as it was.  [selectionChanged], [textInserted], [textDeleted]
    and [initialise] leave every copy as it was. *)
Theorem cursorPosition_is_cached :
  (forall st widget,
     exists acc,
       all_accessibles (construct st widget) = all_accessibles st ++ [acc]
       /\ sciWidget acc = widget /\ cursorPosition acc = -1)
  /\ (forall st sb p acc,
        findAccessible st sb = Some (p, acc) ->
        exists acc',
          findAccessible (updated st sb) sb = Some (p, acc')
          /\ cursorPosition acc'
             = positionAsTextPosition sb (SendScintilla sb SCI_GETCURRENTPOS 0 0)
          /\ (forall q, q <> p ->
                nth_error (all_accessibles (updated st sb)) q
                = nth_error (all_accessibles st) q))
  /\ (forall st sb selection position text,
        map cursorPosition (all_accessibles (selectionChanged st sb selection))
        = map cursorPosition (all_accessibles st)
        /\ all_accessibles (textInserted st sb position text) = all_accessibles st
        /\ all_accessibles (textDeleted st sb position text) = all_accessibles st
        /\ all_accessibles (initialise st) = all_accessibles st).
Proof.
  split; [ | split ].
  - intros st widget. eexists. split; [ reflexivity | split; reflexivity ].
  - intros st sb p acc Hfind. unfold updated. rewrite Hfind.
    destruct (current_cursor_position acc =? _) eqn:Hsame; cbn [negb].
    + exists acc. split; [ exact Hfind | ]. split; [ | reflexivity ].
      now apply Z.eqb_eq in Hsame.
    + eexists. split; [ | split ].
      * unfold findAccessible, updateAccessibility. cbn [all_accessibles].
        rewrite <- (Nat.sub_0_r p) at 1.
        now apply findAccessible_from_assign with acc.
      * reflexivity.
      * intros q Hq. cbn [updateAccessibility all_accessibles].
        now apply nth_error_assign_other.
  - intros st sb selection position text. repeat split.
    + unfold selectionChanged.
      destruct (findAccessible st sb) as [ [ p acc ] | ] eqn:Hfind;
        [ | reflexivity ].
      apply findAccessible_Some in Hfind. destruct Hfind as [ Hnth _ ].
      cbn [all_accessibles]. now apply map_assign with acc.
    + unfold initialise. now destruct (needs_initialising st).
Qed.

Lemma cursorPosition_is_cached_witness :
  exists acc',
    findAccessible
      (updated (construct initial 7) (widget 7 identity accented))
      (widget 7 identity accented) = Some (O, acc')
    /\ cursorPosition acc'
       = positionAsTextPosition (widget 7 identity accented)
           (SendScintilla (widget 7 identity accented) SCI_GETCURRENTPOS 0 0)
    /\ (forall q, q <> O ->
          nth_error
            (all_accessibles
               (updated (construct initial 7) (widget 7 identity accented))) q
          = nth_error (all_accessibles (construct initial 7)) q).
Proof.
  apply (proj1 (proj2 cursorPosition_is_cached)) with (mkAccessible 7 (-1) false).
  reflexivity.
Defined.

(** C4, as stated, fails: after the construction of an accessible for a widget
    whose caret is at the start of an empty document, [cursorPosition] is -1
    and the text position of the engine's caret is 0. *)
Lemma cursorPosition_not_engine_position :
  ~ (forall st sb p acc,
       reachable st -> findAccessible st sb = Some (p, acc) ->
       cursorPosition acc
       = positionAsTextPosition sb (SendScintilla sb SCI_GETCURRENTPOS 0 0)).
Proof.
  intros H.
  specialize (H (construct initial 7) (widget 7 (fun q => q) (document SC_CP_UTF8 []))
                O (mkAccessible 7 (-1) false)).
  discriminate H.
  - apply reachable_step with initial; constructor.
  - reflexivity.
Qed.

(** ** The engine *)

Lemma width_pos c : 1 <= width c.
Proof. unfold width, cells_of. cbn [length]. lia. Qed.

Lemma cells_cons c cs : cells (c :: cs) = cells_of c ++ cells cs.
Proof. reflexivity. Qed.

Lemma Length_cons c cs : Length (c :: cs) = width c + Length cs.
Proof. unfold Length, width. rewrite cells_cons, length_app. lia. Qed.

Lemma Length_nonneg cs : 0 <= Length cs.
Proof. unfold Length. lia. Qed.


Lemma position_of_eq cs k : position_of cs k = Length (firstn k cs).
Proof. reflexivity. Qed.

Lemma position_of_0 cs : position_of cs 0 = 0.
Proof. reflexivity. Qed.

Lemma position_of_nil k : position_of [] k = 0.
Proof. rewrite position_of_eq, firstn_nil. reflexivity. Qed.

Lemma position_of_cons c cs k :
  position_of (c :: cs) (S k) = width c + position_of cs k.
Proof. rewrite !position_of_eq. cbn [firstn]. apply Length_cons. Qed.

Lemma position_of_all cs k :
  (length cs <= k)%nat -> position_of cs k = Length cs.
Proof. intros H. rewrite position_of_eq, firstn_all2 by exact H. reflexivity. Qed.

Lemma position_of_nonneg cs k : 0 <= position_of cs k.
Proof. unfold position_of. lia. Qed.

Lemma position_of_S cs k :
  (k < length cs)%nat -> position_of cs k + 1 <= position_of cs (S k).
Proof.
  revert k. induction cs as [ | c cs IH ]; intros k Hk; cbn [length] in Hk.
  - lia.
  - destruct k as [ | k ].
    + rewrite position_of_cons, !position_of_0. pose proof (width_pos c). lia.
    + rewrite !position_of_cons. specialize (IH k). lia.
Qed.

Lemma position_of_le_Length cs k : position_of cs k <= Length cs.
Proof.
  revert k. induction cs as [ | c cs IH ]; intros k.
  - rewrite position_of_nil. apply Length_nonneg.
  - destruct k as [ | k ].
    + rewrite position_of_0. apply Length_nonneg.
    + rewrite position_of_cons, Length_cons. specialize (IH k). lia.
Qed.

Lemma position_of_lt_Length cs k :
  (k < length cs)%nat -> position_of cs k < Length cs.
Proof.
  intros H. pose proof (position_of_S cs k H).
  pose proof (position_of_le_Length cs (S k)). lia.
Qed.

Lemma position_of_ge cs k :
  (k <= length cs)%nat -> Z.of_nat k <= position_of cs k.
Proof.
  induction k as [ | k IH ]; intros H.
  - rewrite position_of_0. lia.
  - pose proof (position_of_S cs k). lia.
Qed.

Lemma MoveOutsideForward_next cs k :
  MoveOutsideForward cs (position_of cs k + 1) = position_of cs (S k).
Proof.
  revert k. induction cs as [ | c cs IH ]; intros k.
  - now rewrite !position_of_nil.
  - pose proof (width_pos c). cbn [MoveOutsideForward]. destruct k as [ | k ].
    + rewrite position_of_0, position_of_cons, position_of_0.
      rewrite (proj2 (Z.leb_gt (0 + 1) 0)) by lia.
      rewrite (proj2 (Z.leb_le (0 + 1) (width c))) by lia. lia.
    + rewrite !position_of_cons. pose proof (position_of_nonneg cs k).
      rewrite (proj2 (Z.leb_gt _ 0)) by lia.
      rewrite (proj2 (Z.leb_gt _ (width c))) by lia.
      replace (width c + position_of cs k + 1 - width c)
        with (position_of cs k + 1) by lia.
      now rewrite IH.
Qed.

Lemma MoveOutsideBackward_previous cs k :
  (k < length cs)%nat ->
  MoveOutsideBackward cs (position_of cs (S k) - 1) = position_of cs k.
Proof.
  revert k. induction cs as [ | c cs IH ]; intros k Hk; cbn [length] in Hk.
  - lia.
  - pose proof (width_pos c). cbn [MoveOutsideBackward]. destruct k as [ | k ].
    + rewrite position_of_cons, !position_of_0.
      rewrite (proj2 (Z.ltb_lt _ (width c))) by lia. reflexivity.
    + rewrite !position_of_cons. assert (Hk' : (k < length cs)%nat) by lia.
      pose proof (position_of_S cs k Hk'). pose proof (position_of_nonneg cs k).
      rewrite (proj2 (Z.ltb_ge _ (width c))) by lia.
      replace (width c + position_of cs (S k) - 1 - width c)
        with (position_of cs (S k) - 1) by lia.
      now rewrite IH.
Qed.


Lemma StyleAt_cons_lead c cs : StyleAt (c :: cs) 0 = cell_style (lead c).
Proof.
  unfold StyleAt. pose proof (width_pos c). pose proof (Length_nonneg cs).
  rewrite Length_cons.
  rewrite (proj2 (Z.ltb_ge 0 0)) by lia.
  rewrite (proj2 (Z.leb_gt _ 0)) by lia. reflexivity.
Qed.

Lemma StyleAt_cons_skip c cs p :
  0 <= p -> StyleAt (c :: cs) (width c + p) = StyleAt cs p.
Proof.
  intros Hp. unfold StyleAt. pose proof (width_pos c). rewrite Length_cons.
  rewrite (proj2 (Z.ltb_ge (width c + p) 0)) by lia.
  rewrite (proj2 (Z.ltb_ge p 0)) by lia. cbn [orb].
  destruct (Z.leb_spec (Length cs) p) as [Hle | Hlt].
  - now rewrite (proj2 (Z.leb_le (width c + Length cs) (width c + p))) by lia.
  - rewrite (proj2 (Z.leb_gt (width c + Length cs) (width c + p))) by lia.
    rewrite cells_cons, map_app. unfold width.
    rewrite <- (length_map cell_style (cells_of c)).
    rewrite Z2Nat.inj_add, Nat2Z.id by lia.
    rewrite app_nth2 by lia. f_equal. lia.
Qed.

Lemma StyleAt_position_of cs k :
  (k < length cs)%nat ->
  Some (StyleAt cs (position_of cs k)) = character_style cs (Z.of_nat k).
Proof.
  unfold character_style. rewrite (proj2 (Z.ltb_ge (Z.of_nat k) 0)) by lia.
  rewrite Nat2Z.id.
  revert k. induction cs as [ | c cs IH ]; intros k Hk; cbn [length] in Hk.
  - lia.
  - destruct k as [ | k ].
    + rewrite position_of_0, StyleAt_cons_lead. reflexivity.
    + rewrite position_of_cons, StyleAt_cons_skip by apply position_of_nonneg.
      cbn [nth_error]. apply IH. lia.
Qed.

Lemma character_style_None cs t :
  t < 0 \/ Z.of_nat (length cs) <= t -> character_style cs t = None.
Proof.
  intros H. unfold character_style.
  destruct (Z.ltb_spec t 0) as [ | Ht ]; [ reflexivity | ].
  destruct H as [ H | H ]; [ lia | ].
  replace (nth_error cs (Z.to_nat t)) with (@None Character); [ reflexivity | ].
  symmetry. apply nth_error_None. lia.
Qed.

(** The loops of the adapter, for a widget [sb] whose engine answers for the
    document [cs] as the protocol says. *)
Section Walks.

Variable sb : QsciScintillaBase.
Variable cs : list Character.

Hypothesis answer_after : forall pos,
  SendScintilla sb SCI_POSITIONAFTER pos 0 = MoveOutsideForward cs (pos + 1).
Hypothesis answer_before : forall pos,
  SendScintilla sb SCI_POSITIONBEFORE pos 0 = MoveOutsideBackward cs (pos - 1).
Hypothesis answer_style : forall pos,
  SendScintilla sb SCI_GETSTYLEAT pos 0 = StyleAt cs pos.

Lemma positionAfterTimes_position_of n k :
  positionAfterTimes sb n (position_of cs k) = position_of cs (k + n).
Proof.
  revert k. induction n as [ | n IH ]; intros k; cbn [positionAfterTimes].
  - now rewrite Nat.add_0_r.
  - rewrite answer_after, MoveOutsideForward_next, IH. f_equal. lia.
Qed.

Lemma textPositionAsPosition_position_of t :
  textPositionAsPosition sb t = position_of cs (Z.to_nat t).
Proof.
  unfold textPositionAsPosition. rewrite <- (position_of_0 cs) at 1.
  now rewrite positionAfterTimes_position_of.
Qed.

(** The first loop, entered at the character [n]: it stops at the first
    character [m] of the run that ends before [n]. *)
Lemma attributes_start_run style n :
  (n <= length cs)%nat ->
  exists m, (m <= n)%nat
    /\ (forall fuel, (n <= fuel)%nat ->
          attributes_start fuel sb style (position_of cs n) (Z.of_nat n)
          = Some (Z.of_nat m))
    /\ (forall j, (m <= j < n)%nat -> StyleAt cs (position_of cs j) = style)
    /\ (m = O \/ StyleAt cs (position_of cs (m - 1)) <> style).
Proof.
  induction n as [ | n IH ]; intros Hn.
  - exists O. repeat split; [ lia | | lia | now left ].
    intros fuel _. rewrite position_of_0. destruct fuel; reflexivity.
  - assert (Hpos : 0 < position_of cs (S n))
      by (pose proof (position_of_ge cs (S n) Hn); lia).
    assert (Hbefore : SendScintilla sb SCI_POSITIONBEFORE (position_of cs (S n)) 0
                      = position_of cs n)
      by (rewrite answer_before; apply MoveOutsideBackward_previous; lia).
    destruct (Z.eq_dec (StyleAt cs (position_of cs n)) style) as [ Heq | Hne ].
    + destruct IH as (m & Hm & Hrun & Hsame & Hmax); [ lia | ].
      exists m. repeat split; [ lia | | | exact Hmax ].
      * intros [ | fuel ] Hfuel; [ lia | ]. cbn [attributes_start].
        rewrite (proj2 (Z.ltb_lt 0 _) Hpos), Hbefore, answer_style.
        rewrite (proj2 (Z.eqb_eq _ _) Heq). cbn [negb].
        replace (Z.of_nat (S n) - 1) with (Z.of_nat n) by lia.
        apply Hrun. lia.
      * intros j Hj. destruct (Nat.eq_dec j n) as [ -> | ]; [ exact Heq | ].
        apply Hsame. lia.
    + exists (S n). repeat split; [ lia | | lia | ].
      * intros [ | fuel ] Hfuel; [ lia | ]. cbn [attributes_start].
        rewrite (proj2 (Z.ltb_lt 0 _) Hpos), Hbefore, answer_style.
        now rewrite (proj2 (Z.eqb_neq _ _) Hne).
      * right. now replace (S n - 1)%nat with n by lia.
Qed.

(** The second loop, entered at the character [n] with [r] characters left:
    it stops at the end [m] of the run that starts at [n]. *)
Lemma attributes_end_run style r : forall n,
  (n + r = length cs)%nat ->
  exists m, (n <= m <= length cs)%nat
    /\ (forall fuel, (r <= fuel)%nat ->
          attributes_end fuel sb style (Length cs) (position_of cs n) (Z.of_nat n)
          = Some (Z.of_nat m))
    /\ (forall j, (n <= j < m)%nat -> StyleAt cs (position_of cs j) = style)
    /\ (m = length cs \/ StyleAt cs (position_of cs m) <> style).
Proof.
  induction r as [ | r IH ]; intros n Hn.
  - exists n. repeat split; [ lia | lia | | lia | left; lia ].
    intros fuel _. rewrite position_of_all by lia.
    destruct fuel; cbn [attributes_end]; now rewrite Z.ltb_irrefl.
  - assert (Hlt : position_of cs n < Length cs)
      by (apply position_of_lt_Length; lia).
    destruct (Z.eq_dec (StyleAt cs (position_of cs n)) style) as [ Heq | Hne ].
    + destruct (IH (S n)) as (m & Hm & Hrun & Hsame & Hmax); [ lia | ].
      exists m. repeat split; [ lia | lia | | | exact Hmax ].
      * intros [ | fuel ] Hfuel; [ lia | ]. cbn [attributes_end].
        rewrite (proj2 (Z.ltb_lt _ _) Hlt), answer_style.
        rewrite (proj2 (Z.eqb_eq _ _) Heq). cbn [negb].
        rewrite answer_after, MoveOutsideForward_next.
        replace (Z.of_nat n + 1) with (Z.of_nat (S n)) by lia.
        apply Hrun. lia.
      * intros j Hj. destruct (Nat.eq_dec j n) as [ -> | ]; [ exact Heq | ].
        apply Hsame. lia.
    + exists n. repeat split; [ lia | lia | | lia | now right ].
      intros [ | fuel ] Hfuel; [ lia | ]. cbn [attributes_end].
      rewrite (proj2 (Z.ltb_lt _ _) Hlt), answer_style.
      now rewrite (proj2 (Z.eqb_neq _ _) Hne).
Qed.

End Walks.

Lemma widget_textPositionAsPosition address g d t :
  textPositionAsPosition (widget address g d) t
  = position_of (characters d) (Z.to_nat t).
Proof. now apply textPositionAsPosition_position_of. Qed.

Lemma Clamp_inside val minVal maxVal :
  minVal <= val <= maxVal -> Clamp val minVal maxVal = val.
Proof.
  intros H. unfold Clamp. cbv zeta.
  rewrite (proj2 (Z.ltb_ge maxVal val)) by lia.
  now rewrite (proj2 (Z.ltb_ge val minVal)) by lia.
Qed.

Lemma Clamp_below val minVal maxVal :
  val < minVal <= maxVal -> Clamp val minVal maxVal = minVal.
Proof.
  intros H. unfold Clamp. cbv zeta.
  rewrite (proj2 (Z.ltb_ge maxVal val)) by lia.
  now rewrite (proj2 (Z.ltb_lt val minVal)) by lia.
Qed.

Lemma Clamp_bounds val minVal maxVal :
  minVal <= maxVal -> minVal <= Clamp val minVal maxVal <= maxVal.
Proof.
  intros H. unfold Clamp. cbv zeta.
  destruct (Z.ltb_spec maxVal val);
    [ rewrite (proj2 (Z.ltb_ge maxVal minVal)) by lia; lia | ].
  destruct (Z.ltb_spec val minVal); lia.
Qed.

Lemma NextPosition_forward cs k :
  NextPosition cs (position_of cs k) 1 = position_of cs (S k).
Proof. unfold NextPosition. cbn [Z.ltb Z.compare]. apply MoveOutsideForward_next. Qed.

Lemma RelativeSteps_forward cs n : forall k,
  (k <= length cs)%nat ->
  RelativeSteps cs n 1 (position_of cs k)
  = if (k + n <=? length cs)%nat then position_of cs (k + n) else INVALID_POSITION.
Proof.
  induction n as [ | n IH ]; intros k Hk; cbn [RelativeSteps].
  - rewrite Nat.add_0_r. now rewrite (proj2 (Nat.leb_le _ _) Hk).
  - rewrite NextPosition_forward.
    destruct (Nat.eq_dec k (length cs)) as [ -> | Hne ].
    + rewrite (position_of_all cs (S _)), (position_of_all cs (length cs)) by lia.
      rewrite Z.eqb_refl. now rewrite (proj2 (Nat.leb_gt _ _)) by lia.
    + pose proof (position_of_S cs k).
      rewrite (proj2 (Z.eqb_neq _ _)) by lia.
      rewrite IH by lia. now replace (S k + n)%nat with (k + S n)%nat by lia.
Qed.

Lemma characterCount_le address g d :
  characterCount (widget address g d) <= Z.of_nat (length (characters d)).
Proof.
  unfold characterCount, positionAsTextPosition. cbn [widget SendScintilla answer].
  set (cs := characters d). unfold GetRelativePosition.
  pose proof (position_of_ge cs (length cs) (le_n _)) as Hge.
  rewrite position_of_all in Hge by lia.
  destruct (Z.ltb_spec 0 (Length cs)) as [ Hpos | Hzero ].
  - rewrite <- (position_of_0 cs) at 1. rewrite RelativeSteps_forward by lia.
    cbn [Nat.add].
    destruct (Nat.leb_spec (Z.abs_nat (Length cs)) (length cs)) as [ Hle | Hgt ].
    + assert (Heq : Z.abs_nat (Length cs) = length cs) by lia.
      rewrite Heq, position_of_all by lia. rewrite Clamp_inside by lia. lia.
    + rewrite Clamp_below by (unfold INVALID_POSITION; lia). lia.
  - assert (H0 : Length cs = 0) by (pose proof (Length_nonneg cs); lia).
    rewrite H0. cbn. lia.
Qed.


(** C2.  For a character [offset] of the document, [attributes] returns
    (given at least as many passes as the document has characters) the style
    run around it: [startOffset <= offset < endOffset], every character from
    [startOffset] up to [endOffset] has the style of the character at
    [offset], the run starts the document or follows a character of another
    style, and it ends at the text length or before a character of another
    style.  The bound on [offset] is the larger of [characterCount()] and the
    number of characters of the document; the former never exceeds the
    latter. *)
Theorem attributes_style_run address g d offset :
  0 <= offset
    < Z.max (characterCount (widget address g d))
            (Z.of_nat (length (characters d))) ->
  exists startOffset endOffset,
    (forall fuel, (length (characters d) <= fuel)%nat ->
       attributes fuel (widget address g d) offset
       = Some (startOffset, endOffset))
    /\ style_run (widget address g d) (characters d) offset startOffset endOffset.
Proof.
  intros Hoffset. pose proof (characterCount_le address g d) as Hcount.
  set (sb := widget address g d) in *. set (cs := characters d) in *.
  assert (Hn : (Z.to_nat offset < length cs)%nat) by lia.
  set (n := Z.to_nat offset) in *.
  assert (Hoff : offset = Z.of_nat n) by lia.
  pose (style := StyleAt cs (position_of cs n)).
  destruct (attributes_start_run sb cs) with (style := style) (n := n)
    as (m1 & Hm1 & Hrun1 & Hsame1 & Hmax1); [ reflexivity .. | lia | ].
  destruct (attributes_end_run sb cs)
    with (style := style) (r := (length cs - S n)%nat) (n := S n)
    as (m2 & Hm2 & Hrun2 & Hsame2 & Hmax2); [ reflexivity .. | lia | ].
  exists (Z.of_nat m1), (Z.of_nat m2). split.
  - intros fuel Hfuel. unfold attributes.
    rewrite (widget_textPositionAsPosition address g d). fold sb cs n.
    change (SendScintilla sb SCI_GETSTYLEAT (position_of cs n) 0) with style.
    rewrite Hoff at 1. rewrite Hrun1 by lia.
    change (SendScintilla sb SCI_POSITIONAFTER (position_of cs n) 0)
      with (MoveOutsideForward cs (position_of cs n + 1)).
    rewrite MoveOutsideForward_next.
    change (SendScintilla sb SCI_GETTEXTLENGTH 0 0) with (Length cs).
    replace (offset + 1) with (Z.of_nat (S n)) by lia.
    rewrite Hrun2 by lia. reflexivity.
  - assert (Hstyle : forall j, (m1 <= j < m2)%nat ->
                       StyleAt cs (position_of cs j) = style).
    { intros j Hj. destruct (Nat.lt_ge_cases j n); [ apply Hsame1; lia | ].
      destruct (Nat.eq_dec j n) as [ -> | ]; [ reflexivity | apply Hsame2; lia ]. }
    assert (Hat : character_style cs offset = Some style)
      by (rewrite Hoff; symmetry; now apply StyleAt_position_of).
    unfold style_run. rewrite Hat. repeat split.
    + lia.
    + lia.
    + intros t Ht. replace t with (Z.of_nat (Z.to_nat t)) by lia.
      rewrite <- (StyleAt_position_of cs) by lia. f_equal. apply Hstyle. lia.
    + destruct m1 as [ | m1 ]; [ now left | right ].
      destruct Hmax1 as [ Hmax1 | Hmax1 ]; [ discriminate | ].
      replace (Z.of_nat (S m1) - 1) with (Z.of_nat m1) by lia.
      rewrite <- (StyleAt_position_of cs) by lia.
      replace (S m1 - 1)%nat with m1 in Hmax1 by lia. congruence.
    + destruct Hmax2 as [ -> | Hmax2 ].
      * left. rewrite (widget_textPositionAsPosition address g d).
        fold cs. rewrite Nat2Z.id. now apply position_of_all.
      * right. destruct (Nat.eq_dec m2 (length cs)) as [ Heq | Hne ].
        -- rewrite (character_style_None cs) by lia. discriminate.
        -- rewrite <- (StyleAt_position_of cs) by lia. congruence.
Qed.


Lemma attributes_style_run_witness :
  exists startOffset endOffset,
    (forall fuel, (length (characters accented) <= fuel)%nat ->
       attributes fuel (widget 7 identity accented) 1
       = Some (startOffset, endOffset))
    /\ style_run (widget 7 identity accented) (characters accented) 1
         startOffset endOffset.
Proof.
  apply attributes_style_run. split; [ lia | ].
  apply Z.max_lt_iff. right. cbn. lia.
Defined.

Lemma skipn_cells cs k :
  skipn (bytes_before cs k) (cells cs) = cells (skipn k cs).
Proof.
  unfold bytes_before. revert k. induction cs as [ | c cs IH ]; intros k.
  - destruct k; reflexivity.
  - destruct k as [ | k ]; [ reflexivity | ].
    cbn [firstn skipn]. rewrite !cells_cons, length_app, skipn_app.
    rewrite skipn_all2 by lia.
    replace (length (cells_of c) + length (cells (firstn k cs)) - length (cells_of c))%nat
      with (length (cells (firstn k cs))) by lia.
    now rewrite IH.
Qed.

Lemma firstn_cells cs k :
  firstn (bytes_before cs k) (cells cs) = cells (firstn k cs).
Proof.
  unfold bytes_before. revert k. induction cs as [ | c cs IH ]; intros k.
  - destruct k; reflexivity.
  - destruct k as [ | k ]; [ reflexivity | ].
    cbn [firstn]. rewrite !cells_cons, length_app, firstn_app.
    rewrite firstn_all2 by lia.
    replace (length (cells_of c) + length (cells (firstn k cs)) - length (cells_of c))%nat
      with (length (cells (firstn k cs))) by lia.
    now rewrite IH.
Qed.

Lemma bytes_before_split cs s k :
  bytes_before cs (s + k) = (bytes_before cs s + bytes_before (skipn s cs) k)%nat.
Proof.
  unfold bytes_before. revert s. induction cs as [ | c cs IH ]; intros s.
  - destruct s, k; reflexivity.
  - destruct s as [ | s ]; [ reflexivity | ].
    cbn [Nat.add firstn skipn]. rewrite !cells_cons, !length_app, IH. lia.
Qed.

Lemma GetCharRange_between cs s e :
  0 <= s <= e ->
  GetCharRange cs (position_of cs (Z.to_nat s))
    (position_of cs (Z.to_nat e) - position_of cs (Z.to_nat s))
  = bytes_between cs s e
  /\ Z.of_nat (length (bytes_between cs s e))
     = position_of cs (Z.to_nat e) - position_of cs (Z.to_nat s).
Proof.
  intros Hse. unfold bytes_between, position_of.
  set (a := Z.to_nat s). set (k := (Z.to_nat e - a)%nat).
  replace (Z.to_nat e) with (a + k)%nat by lia.
  rewrite bytes_before_split.
  replace (Z.of_nat (bytes_before cs a + bytes_before (skipn a cs) k)
           - Z.of_nat (bytes_before cs a))
    with (Z.of_nat (bytes_before (skipn a cs) k)) by lia.
  assert (Hlen : length (map cell_byte (cells (firstn k (skipn a cs))))
                 = bytes_before (skipn a cs) k)
    by (rewrite length_map; reflexivity).
  split; [ | now rewrite Hlen ].
  unfold GetCharRange.
  destruct (Z.leb_spec (Z.of_nat (bytes_before (skipn a cs) k)) 0) as [ Hz | Hp ].
  - cbn [orb]. symmetry. apply length_zero_iff_nil. lia.
  - rewrite (proj2 (Z.ltb_ge _ 0)) by lia.
    pose proof (position_of_le_Length cs (a + k)) as Hle.
    unfold position_of in Hle. rewrite bytes_before_split in Hle.
    rewrite (proj2 (Z.ltb_ge _ _)) by lia. cbn [orb].
    rewrite !Nat2Z.id, skipn_map, firstn_map, skipn_cells, firstn_cells.
    reflexivity.
Qed.

Lemma firstn_assign_after (data rest : list Z) z :
  firstn (length data) (assign (data ++ rest) (length data) z) = data.
Proof.
  induction data as [ | b data IH ]; cbn [length app].
  - reflexivity.
  - cbn [assign firstn]. now rewrite IH.
Qed.


Lemma convertToUnicode_encoded cs cps :
  Forall2 encodes cs cps -> convertToUnicode (map cell_byte (cells cs)) = concat cps.
Proof.
  induction 1 as [ | c cp cs cps [ Hcp Hbytes ] _ IH ]; [ reflexivity | ].
  rewrite cells_cons, map_app, Hbytes, convertToUnicode_code_point by exact Hcp.
  cbn [concat]. now rewrite IH.
Qed.

Lemma fromUtf8_encoded cs cps :
  Forall2 encodes cs cps ->
  fromUtf8 (map cell_byte (cells cs)) = concat (without_leading_mark cps).
Proof.
  intros Henc. unfold fromUtf8.
  destruct Henc as [ | c cp cs cps [ Hcp Hbytes ] Hrest ]; [ reflexivity | ].
  rewrite cells_cons, map_app, Hbytes, has_byte_order_mark_code_point by exact Hcp.
  cbn [without_leading_mark].
  destruct (is_byte_order_mark cp) eqn:Hmark.
  - destruct cp as [ | u [ | v cp ] ]; try discriminate.
    cbn [is_byte_order_mark] in Hmark. apply Z.eqb_eq in Hmark. subst u.
    cbn [toUtf8 app skipn]. now apply convertToUnicode_encoded.
  - rewrite <- Hbytes, <- map_app, <- cells_cons.
    apply convertToUnicode_encoded. constructor; [ now split | exact Hrest ].
Qed.

Lemma Forall2_firstn {A B} (R : A -> B -> Prop) l l' n :
  Forall2 R l l' -> Forall2 R (firstn n l) (firstn n l').
Proof.
  intros H. revert n. induction H; intros [ | n ]; cbn [firstn]; auto.
Qed.

Lemma Forall2_skipn {A B} (R : A -> B -> Prop) l l' n :
  Forall2 R l l' -> Forall2 R (skipn n l) (skipn n l').
Proof.
  intros H. revert n. induction H; intros [ | n ]; cbn [skipn]; auto.
Qed.

Lemma text_bytes_between address g d s e :
  0 <= s <= e ->
  text (widget address g d) s e
  = bytesAsText (widget address g d) (bytes_between (characters d) s e).
Proof.
  intros Hse. unfold text.
  rewrite !(widget_textPositionAsPosition address g d).
  set (cs := characters d).
  destruct (GetCharRange_between cs s e Hse) as [ Hget Hlen ].
  set (ps := position_of cs (Z.to_nat s)) in *.
  set (pe := position_of cs (Z.to_nat e)) in *.
  assert (Hpe : 0 <= pe) by apply position_of_nonneg.
  cbn [widget SendScintillaRange answerRange]. fold cs.
  rewrite (proj2 (Z.eqb_neq pe (-1))) by lia.
  rewrite Hget. unfold QByteArray_fill, copy_into. rewrite repeat_length.
  replace (Z.to_nat (Z.of_nat (Z.to_nat (pe - ps + 1)) - 1))
    with (length (bytes_between cs s e)) by lia.
  replace (Z.to_nat (pe - ps)) with (length (bytes_between cs s e)) by lia.
  now rewrite firstn_assign_after.
Qed.

Lemma bytesAsText_nil sb : bytesAsText sb [] = [].
Proof. unfold bytesAsText. now destruct (_ =? _). Qed.

Lemma text_code_points address g d cps s e :
  code_page d = SC_CP_UTF8 -> Forall2 encodes (characters d) cps ->
  0 <= s <= e ->
  text (widget address g d) s e
  = concat (without_leading_mark (code_points_between cps s e)).
Proof.
  intros Hcp Henc Hse. rewrite text_bytes_between by exact Hse.
  unfold bytesAsText. cbn [widget SendScintilla answer].
  rewrite Hcp, Z.eqb_refl. unfold bytes_between, code_points_between.
  apply fromUtf8_encoded. now apply Forall2_firstn, Forall2_skipn.
Qed.

(** C5, as the code has it.  [text(startOffset, endOffset)] is the bytes of
    the characters at the text positions from [startOffset] up to, and
    without, [endOffset], as the toolkit decodes them under the code page:
    under a code page other than [SC_CP_UTF8] every byte as one code unit;
    under [SC_CP_UTF8], in a document whose characters are code points, the
    code points of the range, without the first of them when that is the byte
    order mark U+FEFF.  With equal arguments it is the empty string. *)
Theorem text_is_range address g d :
  (forall startOffset endOffset,
     0 <= startOffset <= endOffset ->
     text (widget address g d) startOffset endOffset
     = if code_page d =? SC_CP_UTF8
       then fromUtf8 (bytes_between (characters d) startOffset endOffset)
       else fromLatin1 (bytes_between (characters d) startOffset endOffset))
  /\ (code_page d = SC_CP_UTF8 ->
      forall cps, Forall2 encodes (characters d) cps ->
      forall startOffset endOffset,
        0 <= startOffset <= endOffset ->
        text (widget address g d) startOffset endOffset
        = concat (without_leading_mark
                    (code_points_between cps startOffset endOffset)))
  /\ (forall t, text (widget address g d) t t = []).
Proof.
  split; [ | split ].
  - intros s e Hse. now rewrite text_bytes_between by exact Hse.
  - intros Hcp cps Henc s e Hse. now apply text_code_points.
  - intros t. destruct (Z.le_gt_cases 0 t) as [ Ht | Ht ].
    + rewrite text_bytes_between by lia. unfold bytes_between.
      rewrite Nat.sub_diag. cbn [firstn cells flat_map map]. apply bytesAsText_nil.
    + unfold text, textPositionAsPosition.
      replace (Z.to_nat t) with O by lia. cbn [positionAfterTimes].
      cbn. apply bytesAsText_nil.
Qed.

Lemma text_is_range_witness :
  text (widget 7 identity marked) 0 3 = [0x61; 0xFEFF; 0x62]
  /\ text (widget 7 identity marked) 1 3 = [0x62].
Proof.
  split.
  - apply (proj1 (proj2 (text_is_range 7 identity marked)) eq_refl
             [[0x61]; [0xFEFF]; [0x62]]).
    + repeat constructor; cbn; lia.
    + lia.
  - apply (proj1 (proj2 (text_is_range 7 identity marked)) eq_refl
             [[0x61]; [0xFEFF]; [0x62]]).
    + repeat constructor; cbn; lia.
    + lia.
Defined.

(** C5, as the claim states it, fails: the characters of the document [marked]
    at the text positions 1 and 2 are the byte order mark and [b], and
    [text(1, 3)] is not these two. *)
Lemma text_drops_leading_mark :
  Forall2 encodes (characters marked) [[0x61]; [0xFEFF]; [0x62]]
  /\ text (widget 7 identity marked) 1 3
     <> concat (code_points_between [[0x61]; [0xFEFF]; [0x62]] 1 3).
Proof.
  split.
  - repeat constructor; cbn; lia.
  - cbn. discriminate.
Qed.

Lemma positionAsTextPosition_nonneg address g d position :
  0 <= positionAsTextPosition (widget address g d) position.
Proof.
  unfold positionAsTextPosition. cbn [widget SendScintilla answer].
  apply Clamp_bounds, Length_nonneg.
Qed.

(** C6.  The first half of the claim holds of the code: [offsetAtPoint]
    returns -1 exactly when the engine answers [SCI_POSITIONFROMPOINT], for
    the point in viewport coordinates, with a negative position.  The second
    half does not: of a position that is not negative the code returns what
    [positionAsTextPosition] makes, and that is not its text position once a
    character before it has several bytes.  In the UTF-8 document of an e with
    acute accent, on two bytes, and [a], the byte position 2 is the text
    position 1 and the byte position 3, the end of the text, is the text
    position 2; [offsetAtPoint] returns 3 for the first and 0 for the
    second. *)
Theorem offsetAtPoint_not_text_position :
  (forall address g d point,
     offsetAtPoint (widget address g d) point = -1
     <-> SendScintilla (widget address g d) SCI_POSITIONFROMPOINT
           (x (g point)) (y (g point)) < 0)
  /\ (SendScintilla (widget 7 identity (accented_at 2)) SCI_POSITIONFROMPOINT 3 4 = 2
      /\ textPositionAsPosition (widget 7 identity (accented_at 2)) 1 = 2
      /\ offsetAtPoint (widget 7 identity (accented_at 2)) (mkQPoint 3 4) = 3)
  /\ (SendScintilla (widget 7 identity (accented_at 3)) SCI_POSITIONFROMPOINT 3 4 = 3
      /\ textPositionAsPosition (widget 7 identity (accented_at 3)) 2 = 3
      /\ offsetAtPoint (widget 7 identity (accented_at 3)) (mkQPoint 3 4) = 0).
Proof.
  split; [ | split; repeat split ].
  intros address g d point. unfold offsetAtPoint. cbn [widget mapFromGlobal].
  set (position := SendScintilla _ SCI_POSITIONFROMPOINT _ _).
  pose proof (positionAsTextPosition_nonneg address g d position) as Hnonneg.
  cbn [widget] in Hnonneg.
  destruct (Z.leb_spec 0 position) as [ Hle | Hlt ].
  - split; lia.
  - split; [ lia | reflexivity ].
Qed.

(** C7.  The parts of the claim on the count and on the zeros hold of the
    code: [selectionCount] is 1 when [is_selection] is set and 0 otherwise,
    and [selection] with an index other than 0, or without a selection, gives
    0 for both offsets.  The part on the selection itself does not: the code
    gives what [positionAsTextPosition] makes of the engine's selection start
    and end, and that is not their text positions once a character before
    them has several bytes.  In the UTF-8 document of an e with acute accent,
    on two bytes, and [a], with the first character selected, the engine's
    selection is the bytes from 0 to 2, the text positions 0 and 1;
    [selection] gives 0 and 3. *)
Theorem selection_not_text_positions :
  (forall this, is_selection this = true -> selectionCount this = 1)
  /\ (forall this, is_selection this = false -> selectionCount this = 0)
  /\ (forall this sb selectionIndex,
        selectionIndex <> 0 \/ is_selection this = false ->
        selection this sb selectionIndex = (0, 0))
  /\ (SendScintilla (widget 7 identity (accented_at 2)) SCI_GETSELECTIONSTART 0 0 = 0
      /\ SendScintilla (widget 7 identity (accented_at 2)) SCI_GETSELECTIONEND 0 0 = 2
      /\ textPositionAsPosition (widget 7 identity (accented_at 2)) 0 = 0
      /\ textPositionAsPosition (widget 7 identity (accented_at 2)) 1 = 2
      /\ selectionCount (mkAccessible 7 2 true) = 1
      /\ selection (mkAccessible 7 2 true) (widget 7 identity (accented_at 2)) 0
         = (0, 3)).
Proof.
  unfold selectionCount, selection. split; [ | split; [ | split ] ].
  - now intros this ->.
  - now intros this ->.
  - intros this sb i [ Hi | Hs ].
    + now rewrite (proj2 (Z.eqb_neq i 0) Hi).
    + rewrite Hs. now rewrite andb_false_r.
  - repeat split.
Qed.

Lemma positionAsTextPosition_as_textPositionAsPosition address g d t :
  0 <= t <= Z.of_nat (length (characters d)) ->
  positionAsTextPosition (widget address g d) t
  = textPositionAsPosition (widget address g d) t.
Proof.
  intros Ht. rewrite (widget_textPositionAsPosition address g d).
  unfold positionAsTextPosition. cbn [widget SendScintilla answer].
  set (cs := characters d) in *. unfold GetRelativePosition.
  assert (Hsteps : RelativeSteps cs (Z.abs_nat t) (if 0 <? t then 1 else -1) 0
                   = position_of cs (Z.to_nat t)).
  { destruct (Z.ltb_spec 0 t) as [ Hpos | Hzero ].
    - rewrite <- (position_of_0 cs) at 1. rewrite RelativeSteps_forward by lia.
      cbn [Nat.add]. rewrite (proj2 (Nat.leb_le _ _)) by lia. f_equal. lia.
    - replace t with 0 by lia. reflexivity. }
  rewrite Hsteps. pose proof (position_of_nonneg cs (Z.to_nat t)).
  pose proof (position_of_le_Length cs (Z.to_nat t)). apply Clamp_inside. lia.
Qed.

Lemma position_of_single cs k :
  Forall (fun c => trail c = []) cs -> (k <= length cs)%nat ->
  position_of cs k = Z.of_nat k.
Proof.
  intros Hsingle. revert k.
  induction Hsingle as [ | c cs Hc _ IH ]; intros k Hk; cbn [length] in Hk.
  - now replace k with O by lia.
  - destruct k as [ | k ]; [ reflexivity | ].
    rewrite position_of_cons, IH by lia. unfold width, cells_of.
    rewrite Hc. cbn [length]. lia.
Qed.

(** Where every character is a single byte the two conversions are the
    identity on the positions of the document, and so inverse to each
    other. *)
Lemma conversions_inverse_single_byte address g d p :
  Forall (fun c => trail c = []) (characters d) ->
  0 <= p <= Length (characters d) ->
  positionAsTextPosition (widget address g d) p = p
  /\ textPositionAsPosition (widget address g d) p = p.
Proof.
  intros Hsingle Hp.
  pose proof (position_of_single (characters d) (length (characters d)) Hsingle (le_n _))
    as Hall.
  rewrite position_of_all in Hall by lia.
  assert (Hto : textPositionAsPosition (widget address g d) p = p).
  { rewrite widget_textPositionAsPosition, position_of_single by (assumption || lia).
    lia. }
  split; [ | exact Hto ].
  rewrite positionAsTextPosition_as_textPositionAsPosition by lia. exact Hto.
Qed.

(** C1, where the code departs from it.  In the UTF-8 document made of an e
    with acute accent (two bytes) and an [a], the text length is 3 and the
    byte position 2 is the boundary before the second character (text
    position 1); [positionAsTextPosition] answers 3 for it and
    [textPositionAsPosition] does not lead back to 2. *)
Theorem conversions_not_inverse_multibyte :
  SendScintilla (widget 7 identity accented) SCI_GETTEXTLENGTH 0 0 = 3
  /\ textPositionAsPosition (widget 7 identity accented) 1 = 2
  /\ positionAsTextPosition (widget 7 identity accented) 2 = 3
  /\ textPositionAsPosition (widget 7 identity accented)
       (positionAsTextPosition (widget 7 identity accented) 2) <> 2.
Proof. repeat split. discriminate. Qed.

(** ** The definitions at work *)

Example toUtf8_accented : toUtf8 [0xE9; 0x61] = [0xC3; 0xA9; 0x61].
Proof. reflexivity. Qed.

Example toUtf8_unpaired_surrogate : toUtf8 [0xD83D; 0x61] = [63; 0x61].
Proof. reflexivity. Qed.

Example toLatin1_euro : toLatin1 [0x61; 0x20AC] = [0x61; 63].
Proof. reflexivity. Qed.

Example fromUtf8_byte_order_mark :
  fromUtf8 [0xEF; 0xBB; 0xBF; 0x61] = [0x61]
  /\ fromUtf8 [0x61; 0xEF; 0xBB; 0xBF] = [0x61; ByteOrderMark].
Proof. split; reflexivity. Qed.

Example fromUtf8_stray_continuation :
  fromUtf8 [0xA9; 0x61] = [ReplacementCharacter; 0x61].
Proof. reflexivity. Qed.

Example textPositionAsPosition_accented :
  map (textPositionAsPosition (widget 7 identity accented)) [-1; 0; 1; 2; 3]
  = [0; 0; 2; 3; 3].
Proof. reflexivity. Qed.

Example positionAsTextPosition_accented :
  map (positionAsTextPosition (widget 7 identity accented)) [0; 1; 2; 3]
  = [0; 2; 3; 0].
Proof. reflexivity. Qed.

Example characterCount_accented :
  characterCount (widget 7 identity accented) = 0.
Proof. reflexivity. Qed.

Example text_accented :
  text (widget 7 identity accented) 0 1 = [0xE9]
  /\ text (widget 7 identity accented) 1 2 = [0x61]
  /\ text (widget 7 identity accented) 0 2 = [0xE9; 0x61].
Proof. repeat split. Qed.

Example attributes_two_runs :
  map (attributes 4 (widget 7 identity two_runs)) [0; 1; 2; 3]
  = [Some (0, 2); Some (0, 2); Some (2, 4); Some (2, 4)].
Proof. reflexivity. Qed.

Example attributes_out_of_fuel :
  attributes 1 (widget 7 identity two_runs) 0 = None.
Proof. reflexivity. Qed.

Example updated_twice :
  events (updated (updated (construct initial 7) (widget 7 identity accented))
            (widget 7 identity accented))
  = [QAccessibleTextCursorEvent 7 0].
Proof. reflexivity. Qed.

(** * Further properties *)

Import Toolkit Factory Text Attributes Edit.

(** ** The registry of accessibles and the notifications *)

Lemma QString_eqb_eq a b : QString_eqb a b = true <-> a = b.
Proof.
  revert b. induction a as [ | u a IH ]; intros [ | v b ]; cbn [QString_eqb];
    try (split; [ discriminate | discriminate ]); [ tauto | ].
  rewrite andb_true_iff, Z.eqb_eq, IH. split.
  - now intros [ -> -> ].
  - intros H. injection H as -> ->. auto.
Qed.

Lemma findAccessible_from_app l l' sb i :
  findAccessible_from (l ++ l') sb i
  = match findAccessible_from l sb i with
    | Some found => Some found
    | None => findAccessible_from l' sb (i + length l)
    end.
Proof.
  revert i. induction l as [ | a l IH ]; intros i; cbn [app findAccessible_from length].
  - now rewrite Nat.add_0_r.
  - destruct (Nat.eqb (sciWidget a) (address sb)); [ reflexivity | ].
    rewrite IH. now replace (S i + length l)%nat with (i + S (length l))%nat by lia.
Qed.

Lemma findAccessible_construct (st : State) (widget : nat) (sb : QsciScintillaBase) :
  findAccessible (construct st widget) sb
  = match findAccessible st sb with
    | Some found => Some found
    | None =>
        if Nat.eqb widget (address sb)
        then Some (length (all_accessibles st),
                   {| sciWidget := widget; current_cursor_position := -1;
                      is_selection := false |})
        else None
    end.
Proof.
  unfold findAccessible. cbn [construct all_accessibles].
  rewrite findAccessible_from_app. reflexivity.
Qed.

(** X1.  The constructor registers the new accessible at the end of the list:
    looking up its widget afterwards finds the accessible that was already
    there for the widget, if any, and otherwise the new one, which starts
    with the cursor position -1 and no selection; the lookup of every other
    widget is unchanged. *)
Theorem construct_registers (st : State) (widget : nat) (sb : QsciScintillaBase) :
  (address sb = widget ->
     findAccessible (construct st widget) sb
     = match findAccessible st sb with
       | Some found => Some found
       | None =>
           Some (length (all_accessibles st),
                 {| sciWidget := widget; current_cursor_position := -1;
                    is_selection := false |})
       end)
  /\ (address sb <> widget ->
        findAccessible (construct st widget) sb = findAccessible st sb).
Proof.
  rewrite findAccessible_construct. split; intros H.
  - now rewrite H, Nat.eqb_refl.
  - rewrite (proj2 (Nat.eqb_neq widget (address sb))) by congruence.
    now destruct (findAccessible st sb).
Qed.

Lemma construct_registers_witness :
  findAccessible (construct (construct initial 3) 7) (widget 7 identity accented)
  = Some (1%nat, mkAccessible 7 (-1) false).
Proof.
  apply (proj1 (construct_registers (construct initial 3) 7 (widget 7 identity accented))).
  reflexivity.
Defined.

(** X2.  The factory returns an accessible exactly when the class name is
    QsciScintillaBase and the object is not null and is a widget; when it
    returns null nothing is constructed, and when it returns an accessible the
    widget is found in the list afterwards. *)
Theorem factory_creates (st : State) (classname : QString) (object : option QObject) :
  (snd (factory st classname object) <> None
   <-> classname = QLatin1String "QsciScintillaBase"%string
       /\ exists o, object = Some o /\ isWidgetType o = true)
  /\ (snd (factory st classname object) = None ->
        fst (factory st classname object) = st)
  /\ (forall o sb,
        object = Some o -> address sb = object_address o ->
        snd (factory st classname object) <> None ->
        findAccessible (fst (factory st classname object)) sb <> None).
Proof.
  unfold factory.
  destruct (QString_eqb classname _) eqn:Hname.
  - apply QString_eqb_eq in Hname.
    destruct object as [ o | ]; [ destruct (isWidgetType o) eqn:Hw | ]; cbn [fst snd].
    + split; [ | split ].
      * split; [ intros _; split; [ exact Hname | now exists o ] | discriminate ].
      * discriminate.
      * intros o' sb Ho Ha _. injection Ho as <-.
        rewrite findAccessible_construct, Ha, Nat.eqb_refl.
        destruct (findAccessible st sb); discriminate.
    + split; [ | split ]; try tauto.
      split; [ tauto | ]. intros (_ & o' & Ho & Hw'). injection Ho as <-. congruence.
    + split; [ | split ]; try tauto.
      split; [ tauto | ]. intros (_ & o' & Ho & _). discriminate.
  - cbn [fst snd]. split; [ | split ]; try tauto.
    split; [ tauto | ]. intros (Hc & _). apply QString_eqb_eq in Hc. congruence.
Qed.

Lemma removeAt_last {A} (l : list A) a : removeAt (l ++ [a]) (length l) = l.
Proof. induction l as [ | b l IH ]; cbn [app length removeAt]; congruence. Qed.

Lemma findAccessible_from_shift l sb i j :
  option_map snd (findAccessible_from l sb i)
  = option_map snd (findAccessible_from l sb j).
Proof.
  revert i j. induction l as [ | a l IH ]; intros i j; cbn [findAccessible_from].
  - reflexivity.
  - destruct (Nat.eqb (sciWidget a) (address sb)); [ reflexivity | apply IH ].
Qed.

Lemma findAccessible_from_removeAt l sb : forall this k a,
  nth_error l this = Some a -> sciWidget a <> address sb ->
  option_map snd (findAccessible_from (removeAt l this) sb k)
  = option_map snd (findAccessible_from l sb k).
Proof.
  induction l as [ | b l IH ]; intros this k a Hnth Hne.
  - now destruct this.
  - destruct this as [ | this ]; cbn [removeAt nth_error findAccessible_from] in *.
    + injection Hnth as ->.
      rewrite (proj2 (Nat.eqb_neq _ _) Hne). apply findAccessible_from_shift.
    + destruct (Nat.eqb (sciWidget b) (address sb)); [ reflexivity | ].
      now apply IH with a.
Qed.

Lemma In_removeAt_nth {A} (l : list A) i x :
  In x (removeAt l i) -> exists q, q <> i /\ nth_error l q = Some x.
Proof.
  revert i. induction l as [ | b l IH ]; intros i H.
  - destruct i; contradiction.
  - destruct i as [ | i ]; cbn [removeAt] in H.
    + apply In_nth_error in H. destruct H as [ q Hq ]. exists (S q). split; [ lia | exact Hq ].
    + destruct H as [ <- | H ].
      * exists O. split; [ lia | reflexivity ].
      * apply IH in H. destruct H as (q & Hq & Hnth). exists (S q). split; [ lia | exact Hnth ].
Qed.

(** X3.  The destructor undoes the constructor: destroying the accessible
    just constructed gives the state back; destroying an accessible of
    another widget does not change which accessible a lookup finds; and
    destroying the only accessible of a widget makes its lookup fail. *)
Theorem destroy_unregisters (st : State) (sb : QsciScintillaBase) :
  (forall widget, destroy (construct st widget) (length (all_accessibles st)) = st)
  /\ (forall this a,
        nth_error (all_accessibles st) this = Some a ->
        sciWidget a <> address sb ->
        option_map snd (findAccessible (destroy st this) sb)
        = option_map snd (findAccessible st sb))
  /\ (forall p acc,
        findAccessible st sb = Some (p, acc) ->
        (forall q a, q <> p -> nth_error (all_accessibles st) q = Some a ->
                     sciWidget a <> address sb) ->
        findAccessible (destroy st p) sb = None).
Proof.
  split; [ | split ].
  - intros widget. unfold destroy, construct. cbn [all_accessibles needs_initialising installed events].
    rewrite removeAt_last. now destruct st.
  - intros this a Hnth Hne. unfold findAccessible, destroy. cbn [all_accessibles].
    now apply findAccessible_from_removeAt with a.
  - intros p acc _ Honly. unfold findAccessible, destroy. cbn [all_accessibles].
    apply findAccessible_from_None. intros x Hin.
    apply In_removeAt_nth in Hin. destruct Hin as (q & Hq & Hnth). now apply (Honly q).
Qed.

Lemma destroy_unregisters_witness :
  findAccessible (destroy (construct (construct initial 3) 7) 1)
    (widget 7 identity accented) = None.
Proof.
  apply (proj2 (proj2 (destroy_unregisters (construct (construct initial 3) 7)
                         (widget 7 identity accented))))
    with (acc := mkAccessible 7 (-1) false).
  - reflexivity.
  - intros [ | [ | q ] ] a Hq Hnth; cbn in Hnth.
    + injection Hnth as <-. cbn. lia.
    + contradiction.
    + destruct q; discriminate.
Defined.

Lemma assign_assign {A} (l : list A) p a b : assign (assign l p a) p b = assign l p b.
Proof.
  revert p. induction l as [ | c l IH ]; intros [ | p ]; cbn [assign]; congruence.
Qed.

(** X4.  For a registered widget [selectionChanged] sets the selection flag
    of the accessible found, at the same place: the selection count becomes 1
    or 0, the cached cursor position and all other accessibles are kept, and
    without a selection [selection] answers (0, 0).  A second notification
    overrides the first. *)
Theorem selectionChanged_sets (st : State) (sb : QsciScintillaBase) :
  (forall selection p acc,
     findAccessible st sb = Some (p, acc) ->
     exists acc',
       findAccessible (selectionChanged st sb selection) sb = Some (p, acc')
       /\ cursorPosition acc' = cursorPosition acc
       /\ selectionCount acc' = (if selection then 1 else 0)
       /\ (selection = false ->
             forall selectionIndex, Acc.selection acc' sb selectionIndex = (0, 0))
       /\ (forall q, q <> p ->
             nth_error (all_accessibles (selectionChanged st sb selection)) q
             = nth_error (all_accessibles st) q))
  /\ (forall first second,
        selectionChanged (selectionChanged st sb first) sb second
        = selectionChanged st sb second).
Proof.
  split.
  - intros selection p acc Hfind. unfold selectionChanged. rewrite Hfind.
    eexists. split; [ | split; [ | split; [ | split ] ] ].
    + unfold findAccessible. cbn [all_accessibles].
      rewrite <- (Nat.sub_0_r p) at 1.
      now apply findAccessible_from_assign with acc.
    + reflexivity.
    + reflexivity.
    + intros -> i. unfold Acc.selection. cbn [is_selection]. now rewrite andb_false_r.
    + intros q Hq. cbn [all_accessibles]. now apply nth_error_assign_other.
  - intros first second. unfold selectionChanged at 2.
    destruct (findAccessible st sb) as [ [ p acc ] | ] eqn:Hfind.
    + unfold selectionChanged at 1.
      assert (Hin : findAccessible
                {| needs_initialising := needs_initialising st;
                   all_accessibles :=
                     assign (all_accessibles st) p
                       {| sciWidget := sciWidget acc;
                          current_cursor_position := current_cursor_position acc;
                          is_selection := first |};
                   installed := installed st; events := events st |} sb
              = Some (p, {| sciWidget := sciWidget acc;
                            current_cursor_position := current_cursor_position acc;
                            is_selection := first |})).
      { unfold findAccessible. cbn [all_accessibles].
        rewrite <- (Nat.sub_0_r p) at 1.
        now apply findAccessible_from_assign with acc. }
      rewrite Hin. cbn [all_accessibles needs_initialising installed events
                        sciWidget current_cursor_position].
      rewrite assign_assign. unfold selectionChanged. now rewrite Hfind.
    + unfold selectionChanged. now rewrite Hfind.
Qed.

Lemma selectionChanged_sets_witness :
  exists acc',
    findAccessible (selectionChanged (construct initial 7) (widget 7 identity accented) true)
      (widget 7 identity accented) = Some (O, acc')
    /\ cursorPosition acc' = cursorPosition (mkAccessible 7 (-1) false)
    /\ selectionCount acc' = 1
    /\ (true = false ->
          forall selectionIndex,
            Acc.selection acc' (widget 7 identity accented) selectionIndex = (0, 0))
    /\ (forall q, q <> O ->
          nth_error (all_accessibles
                       (selectionChanged (construct initial 7)
                          (widget 7 identity accented) true)) q
          = nth_error (all_accessibles (construct initial 7)) q).
Proof.
  apply (proj1 (selectionChanged_sets (construct initial 7) (widget 7 identity accented))).
  reflexivity.
Defined.

(** X5.  [updated] is idempotent while the engine does not change: a second
    call changes nothing and raises no event.  One call raises no event, or
    one cursor event that carries the position the accessible then caches. *)
Theorem updated_idempotent (st : State) (sb : QsciScintillaBase) :
  updated (updated st sb) sb = updated st sb
  /\ (events (updated st sb) = events st
      \/ exists p acc,
           findAccessible (updated st sb) sb = Some (p, acc)
           /\ events (updated st sb)
              = events st
                  ++ [QAccessibleTextCursorEvent (address sb) (cursorPosition acc)]).
Proof.
  unfold updated at 2 3 4 5 6.
  destruct (findAccessible st sb) as [ [ p acc ] | ] eqn:Hfind.
  - set (cursor_position :=
           positionAsTextPosition sb (SendScintilla sb SCI_GETCURRENTPOS 0 0)).
    destruct (current_cursor_position acc =? cursor_position) eqn:Hsame; cbn [negb].
    + split; [ | now left ]. unfold updated. rewrite Hfind. fold cursor_position.
      now rewrite Hsame.
    + set (acc' := {| sciWidget := sciWidget acc;
                      current_cursor_position := cursor_position;
                      is_selection := is_selection acc |}).
      assert (Hin : forall ev,
                findAccessible
                  (updateAccessibility
                     {| needs_initialising := needs_initialising st;
                        all_accessibles := assign (all_accessibles st) p acc';
                        installed := installed st; events := events st |} ev) sb
                = Some (p, acc')).
      { intros ev. unfold findAccessible, updateAccessibility. cbn [all_accessibles].
        rewrite <- (Nat.sub_0_r p) at 1.
        now apply findAccessible_from_assign with acc. }
      split.
      * unfold updated. rewrite Hin. fold cursor_position.
        cbn [current_cursor_position acc']. now rewrite Z.eqb_refl.
      * right. exists p, acc'. split; [ apply Hin | reflexivity ].
  - split; [ | now left ]. unfold updated. now rewrite Hfind.
Qed.

Lemma In_assign {A} (l : list A) p a x :
  In x (assign l p a) -> In x l \/ x = a.
Proof.
  revert p. induction l as [ | b l IH ]; intros p H.
  - destruct p; contradiction.
  - destruct p as [ | p ]; cbn [assign] in H.
    + destruct H as [ <- | H ]; [ now right | left; now right ].
    + destruct H as [ <- | H ]; [ left; now left | ].
      apply IH in H. destruct H; [ left; now right | now right ].
Qed.

(** X6.  In every state the adapter reaches, the cursor position an
    accessible caches is -1, or a cursor event for its widget has announced
    it. *)
Theorem cached_position_announced (st : State) :
  reachable st ->
  forall acc, In acc (all_accessibles st) ->
    cursorPosition acc = -1
    \/ In (QAccessibleTextCursorEvent (sciWidget acc) (cursorPosition acc))
          (events st).
Proof.
  induction 1 as [ | st st' Hreach IH Hstep ]; intros acc Hin.
  - contradiction.
  - destruct Hstep as [ widget | this | | sb selection | sb position text
                      | sb position text | sb ].
    + cbn [construct all_accessibles events] in *. apply in_app_or in Hin.
      destruct Hin as [ Hin | [ <- | [] ] ]; [ now apply IH | now left ].
    + cbn [destroy all_accessibles events] in *.
      apply In_removeAt_nth in Hin. destruct Hin as (q & _ & Hnth).
      apply IH. now apply nth_error_In with q.
    + unfold initialise in *. destruct (needs_initialising st); now apply IH.
    + unfold selectionChanged in *.
      destruct (findAccessible st sb) as [ [ p found ] | ] eqn:Hfind;
        [ | now apply IH ].
      apply findAccessible_Some in Hfind. destruct Hfind as [ Hnth _ ].
      cbn [all_accessibles events] in *.
      apply In_assign in Hin. destruct Hin as [ Hin | -> ]; [ now apply IH | ].
      apply nth_error_In in Hnth. exact (IH found Hnth).
    + cbn [textInserted updateAccessibility all_accessibles events] in *.
      destruct (IH acc Hin) as [ Hm | Hev ]; [ now left | right ].
      apply in_or_app. now left.
    + cbn [textDeleted updateAccessibility all_accessibles events] in *.
      destruct (IH acc Hin) as [ Hm | Hev ]; [ now left | right ].
      apply in_or_app. now left.
    + unfold updated in *.
      destruct (findAccessible st sb) as [ [ p found ] | ] eqn:Hfind;
        [ | now apply IH ].
      destruct (negb _); [ | now apply IH ].
      apply findAccessible_Some in Hfind. destruct Hfind as [ Hnth Hw ].
      cbn [updateAccessibility all_accessibles events] in *.
      apply In_assign in Hin. destruct Hin as [ Hin | -> ].
      * destruct (IH acc Hin) as [ Hm | Hev ]; [ now left | right ].
        apply in_or_app. now left.
      * right. apply in_or_app. right. cbn [sciWidget cursorPosition current_cursor_position].
        rewrite Hw. now left.
Qed.

Lemma cached_position_announced_witness :
  cursorPosition (mkAccessible 7 0 false) = -1
  \/ In (QAccessibleTextCursorEvent (sciWidget (mkAccessible 7 0 false))
           (cursorPosition (mkAccessible 7 0 false)))
        (events (updated (construct initial 7) (widget 7 identity accented))).
Proof.
  apply (cached_position_announced
           (updated (construct initial 7) (widget 7 identity accented))).
  - apply reachable_step with (construct initial 7); [ | constructor ].
    apply reachable_step with initial; constructor.
  - cbn. now left.
Defined.

(** X7.  The notifications keep the registry: [selectionChanged] and
    [updated] neither add nor remove an accessible nor change its widget,
    [selectionChanged] raises no event, every step of the adapter raises at
    most one event, and a lookup fails after a notification exactly when it
    failed before. *)
Theorem notifications_keep_registry (st : State) (sb : QsciScintillaBase) :
  (forall selection,
     map sciWidget (all_accessibles (selectionChanged st sb selection))
     = map sciWidget (all_accessibles st)
     /\ events (selectionChanged st sb selection) = events st)
  /\ map sciWidget (all_accessibles (updated st sb))
     = map sciWidget (all_accessibles st)
  /\ (forall st', step st st' ->
        exists new, events st' = events st ++ new /\ (length new <= 1)%nat)
  /\ (forall sb', (findAccessible (updated st sb) sb' = None
                   <-> findAccessible st sb' = None)
                  /\ (forall selection,
                        findAccessible (selectionChanged st sb selection) sb' = None
                        <-> findAccessible st sb' = None)).
Proof.
  assert (Hsel : forall selection,
            map sciWidget (all_accessibles (selectionChanged st sb selection))
            = map sciWidget (all_accessibles st)).
  { intros selection. unfold selectionChanged.
    destruct (findAccessible st sb) as [ [ p acc ] | ] eqn:Hfind; [ | reflexivity ].
    apply findAccessible_Some in Hfind. destruct Hfind as [ Hnth _ ].
    cbn [all_accessibles]. now apply map_assign with acc. }
  assert (Hupd : map sciWidget (all_accessibles (updated st sb))
                 = map sciWidget (all_accessibles st)).
  { unfold updated.
    destruct (findAccessible st sb) as [ [ p acc ] | ] eqn:Hfind; [ | reflexivity ].
    destruct (negb _); [ | reflexivity ].
    apply findAccessible_Some in Hfind. destruct Hfind as [ Hnth _ ].
    cbn [updateAccessibility all_accessibles]. now apply map_assign with acc. }
  assert (Hnone : forall l l' sb',
            map sciWidget l = map sciWidget l' ->
            (findAccessible_from l sb' 0 = None <-> findAccessible_from l' sb' 0 = None)).
  { intros l l' sb' Hmap. rewrite !findAccessible_from_None.
    assert (Hin : forall l1 l2, map sciWidget l1 = map sciWidget l2 ->
              (forall acc, In acc l2 -> sciWidget acc <> address sb') ->
              forall acc, In acc l1 -> sciWidget acc <> address sb').
    { intros l1 l2 Hm Hall acc Hacc.
      apply (in_map sciWidget) in Hacc. rewrite Hm in Hacc.
      apply in_map_iff in Hacc. destruct Hacc as (acc2 & <- & Hacc2). now apply Hall. }
    split; apply Hin; congruence. }
  split; [ | split; [ exact Hupd | split ] ].
  - intros selection. split; [ apply Hsel | ].
    unfold selectionChanged. now destruct (findAccessible st sb) as [ [ p acc ] | ].
  - assert (Hnothing : forall evs : list Event,
              exists new, evs = evs ++ new /\ (length new <= 1)%nat)
      by (intros evs; exists []; split; [ now rewrite app_nil_r | cbn; lia ]).
    intros st' [ widget | this | | sb0 selection | sb0 position text
               | sb0 position text | sb0 ].
    + apply Hnothing.
    + apply Hnothing.
    + unfold initialise. destruct (needs_initialising st); apply Hnothing.
    + unfold selectionChanged.
      destruct (findAccessible st sb0) as [ [ p acc ] | ]; apply Hnothing.
    + eexists. split; [ reflexivity | cbn; lia ].
    + eexists. split; [ reflexivity | cbn; lia ].
    + unfold updated. destruct (findAccessible st sb0) as [ [ p acc ] | ];
        [ destruct (negb _) | ]; try apply Hnothing.
      eexists. split; [ reflexivity | cbn; lia ].
  - intros sb'. split; [ | intros selection ]; unfold findAccessible; now apply Hnone.
Qed.

(** ** The conversions between positions *)

Lemma position_of_mono cs k k' :
  (k <= k')%nat -> position_of cs k <= position_of cs k'.
Proof.
  induction 1 as [ | k' _ IH ]; [ lia | ].
  destruct (Nat.lt_ge_cases k' (length cs)) as [ Hlt | Hge ].
  - pose proof (position_of_S cs k' Hlt). lia.
  - rewrite (position_of_all cs (S k')) by lia.
    rewrite (position_of_all cs k') in IH by lia. exact IH.
Qed.

Lemma position_of_strict cs k k' :
  (k < k' <= length cs)%nat -> position_of cs k < position_of cs k'.
Proof.
  intros H. pose proof (position_of_S cs k). pose proof (position_of_mono cs (S k) k').
  lia.
Qed.

(** X8.  Over a document, [textPositionAsPosition] stays within the document,
    is monotone, is strictly increasing up to the number of characters, and
    is the length of the document from there on. *)
Theorem textPositionAsPosition_bounds address g d :
  (forall t,
     0 <= textPositionAsPosition (widget address g d) t <= Length (characters d))
  /\ (forall t t', t <= t' ->
        textPositionAsPosition (widget address g d) t
        <= textPositionAsPosition (widget address g d) t')
  /\ (forall t t', 0 <= t < t' -> t' <= Z.of_nat (length (characters d)) ->
        textPositionAsPosition (widget address g d) t
        < textPositionAsPosition (widget address g d) t')
  /\ (forall t, Z.of_nat (length (characters d)) <= t ->
        textPositionAsPosition (widget address g d) t = Length (characters d)).
Proof.
  repeat split; intros; rewrite ?widget_textPositionAsPosition.
  - apply position_of_nonneg.
  - apply position_of_le_Length.
  - apply position_of_mono. lia.
  - apply position_of_strict. lia.
  - apply position_of_all. lia.
Qed.

Lemma Length_ge_length cs : Z.of_nat (length cs) <= Length cs.
Proof.
  pose proof (position_of_ge cs (length cs) (le_n _)) as H.
  now rewrite position_of_all in H by lia.
Qed.

Lemma Length_gt_length cs :
  Exists (fun c => trail c <> []) cs -> Z.of_nat (length cs) < Length cs.
Proof.
  induction 1 as [ c cs Hc | c cs _ IH ]; rewrite Length_cons; cbn [length].
  - pose proof (Length_ge_length cs). unfold width, cells_of.
    destruct (trail c) as [ | b bs ]; [ contradiction | ]. cbn [length]. lia.
  - pose proof (width_pos c). lia.
Qed.

Lemma positionAsTextPosition_past address g d p :
  Z.of_nat (length (characters d)) < p ->
  positionAsTextPosition (widget address g d) p = 0.
Proof.
  intros Hp. unfold positionAsTextPosition. cbn [widget SendScintilla answer].
  set (cs := characters d) in *. unfold GetRelativePosition.
  rewrite (proj2 (Z.ltb_lt 0 p)) by lia.
  rewrite <- (position_of_0 cs) at 1. rewrite RelativeSteps_forward by lia.
  cbn [Nat.add]. rewrite (proj2 (Nat.leb_gt _ _)) by lia.
  apply Clamp_below. pose proof (Length_nonneg cs). unfold INVALID_POSITION. lia.
Qed.

Lemma MoveOutsideBackward_negative cs pos : pos < 0 -> MoveOutsideBackward cs pos = 0.
Proof.
  intros H. destruct cs as [ | c cs ]; [ reflexivity | ].
  cbn [MoveOutsideBackward]. pose proof (width_pos c).
  now rewrite (proj2 (Z.ltb_lt pos (width c))) by lia.
Qed.

Lemma positionAsTextPosition_negative address g d p :
  p < 0 -> positionAsTextPosition (widget address g d) p = 0.
Proof.
  intros Hp. unfold positionAsTextPosition. cbn [widget SendScintilla answer].
  set (cs := characters d). unfold GetRelativePosition.
  rewrite (proj2 (Z.ltb_ge 0 p)) by lia.
  destruct (Z.abs_nat p) as [ | n ] eqn:Hn; [ lia | ].
  cbn [RelativeSteps]. unfold NextPosition.
  rewrite (proj2 (Z.ltb_ge 0 (-1))) by lia.
  rewrite MoveOutsideBackward_negative by lia. rewrite Z.eqb_refl.
  apply Clamp_below. pose proof (Length_nonneg cs). unfold INVALID_POSITION. lia.
Qed.

(** X9.  Over a document of n characters, [positionAsTextPosition] maps p in
    [0, n] to the byte position of the character with index p, and any other
    p to 0. *)
Theorem positionAsTextPosition_computes address g d p :
  (0 <= p <= Z.of_nat (length (characters d)) ->
     positionAsTextPosition (widget address g d) p
     = position_of (characters d) (Z.to_nat p))
  /\ (p < 0 \/ Z.of_nat (length (characters d)) < p ->
        positionAsTextPosition (widget address g d) p = 0).
Proof.
  split.
  - intros Hp. rewrite positionAsTextPosition_as_textPositionAsPosition by exact Hp.
    apply widget_textPositionAsPosition.
  - intros [ Hp | Hp ];
      [ now apply positionAsTextPosition_negative | now apply positionAsTextPosition_past ].
Qed.

(** X10.  [characterCount] is the number of characters when every character
    is one byte, and 0 when some character is longer. *)
Theorem characterCount_value address g d :
  (Forall (fun c => trail c = []) (characters d) ->
     characterCount (widget address g d) = Z.of_nat (length (characters d)))
  /\ (Exists (fun c => trail c <> []) (characters d) ->
        characterCount (widget address g d) = 0).
Proof.
  unfold characterCount. cbn [widget SendScintilla answer].
  change (Clamp (GetRelativePosition (characters d) 0 (Length (characters d))) 0
            (Length (characters d)))
    with (positionAsTextPosition (widget address g d) (Length (characters d))).
  split.
  - intros Hsingle.
    pose proof (position_of_single (characters d) (length (characters d)) Hsingle (le_n _))
      as Hall.
    rewrite position_of_all in Hall by lia.
    rewrite positionAsTextPosition_as_textPositionAsPosition by lia.
    rewrite widget_textPositionAsPosition, Hall, Nat2Z.id.
    now rewrite position_of_all by lia.
  - intros Hmulti. apply positionAsTextPosition_past. now apply Length_gt_length.
Qed.

(** ** The text of a range *)

(** X11.  [text] of a range whose start offset is the number of characters
    of the document or more, that is at or past the end of the text, is
    empty; and an end offset that is the number of characters or more gives
    the text from the start offset to the end of the document. *)
Theorem text_past_the_end address g d :
  (forall s e, Z.of_nat (length (characters d)) <= s <= e ->
     text (widget address g d) s e = [])
  /\ (forall s e, 0 <= s <= e -> Z.of_nat (length (characters d)) <= e ->
        text (widget address g d) s e
        = text (widget address g d) s
            (Z.max s (Z.of_nat (length (characters d))))).
Proof.
  split.
  - intros s e Hse. rewrite text_bytes_between by lia. unfold bytes_between.
    rewrite skipn_all2 by lia. rewrite firstn_nil. apply bytesAsText_nil.
  - intros s e Hse He. rewrite !text_bytes_between by lia. f_equal.
    unfold bytes_between. do 2 f_equal.
    rewrite !firstn_all2; [ reflexivity | | ]; rewrite length_skipn; lia.
Qed.

Lemma text_past_the_end_witness :
  text (widget 7 identity accented) 1 9
  = text (widget 7 identity accented) 1 (Z.max 1 (Z.of_nat (length (characters accented)))).
Proof.
  apply (proj2 (text_past_the_end 7 identity accented)); cbn; lia.
Defined.

Lemma firstn_plus {A} (l : list A) a b :
  firstn (a + b) l = firstn a l ++ firstn b (skipn a l).
Proof.
  revert l. induction a as [ | a IH ]; intros l; [ reflexivity | ].
  destruct l as [ | x l ]; cbn [Nat.add firstn skipn app].
  - now rewrite firstn_nil.
  - now rewrite IH.
Qed.

Lemma skipn_plus {A} (l : list A) a b : skipn (a + b) l = skipn b (skipn a l).
Proof.
  revert l. induction a as [ | a IH ]; intros l; [ reflexivity | ].
  destruct l as [ | x l ]; cbn [Nat.add skipn]; [ now rewrite skipn_nil | apply IH ].
Qed.

Lemma bytes_between_split cs s m e :
  0 <= s <= m -> m <= e ->
  bytes_between cs s m ++ bytes_between cs m e = bytes_between cs s e.
Proof.
  intros Hsm Hme. unfold bytes_between.
  replace (Z.to_nat e - Z.to_nat s)%nat
    with ((Z.to_nat m - Z.to_nat s) + (Z.to_nat e - Z.to_nat m))%nat by lia.
  rewrite firstn_plus, <- skipn_plus.
  replace (Z.to_nat s + (Z.to_nat m - Z.to_nat s))%nat with (Z.to_nat m) by lia.
  unfold cells. now rewrite flat_map_app, map_app.
Qed.

(** X12.  Under a code page other than UTF-8, [text] is the bytes of the
    characters of the range, each as a code unit, and the texts of adjacent
    ranges concatenate to the text of the joined range. *)
Theorem text_single_byte_code_page address g d :
  code_page d <> SC_CP_UTF8 ->
  (forall s e, 0 <= s <= e ->
     text (widget address g d) s e = bytes_between (characters d) s e)
  /\ (forall s m e, 0 <= s <= m -> m <= e ->
        text (widget address g d) s m ++ text (widget address g d) m e
        = text (widget address g d) s e).
Proof.
  intros Hcp.
  assert (Hbytes : forall s e, 0 <= s <= e ->
            text (widget address g d) s e = bytes_between (characters d) s e).
  { intros s e Hse. rewrite text_bytes_between by exact Hse.
    unfold bytesAsText. cbn [widget SendScintilla answer].
    now rewrite (proj2 (Z.eqb_neq _ _) Hcp). }
  split; [ exact Hbytes | ].
  intros s m e Hsm Hme. rewrite !Hbytes by lia. now apply bytes_between_split.
Qed.

Lemma text_single_byte_code_page_witness :
  text (widget 7 identity two_runs) 0 1 ++ text (widget 7 identity two_runs) 1 3
  = text (widget 7 identity two_runs) 0 3.
Proof.
  apply (proj2 (text_single_byte_code_page 7 identity two_runs ltac:(discriminate)));
    lia.
Defined.

Lemma is_byte_order_mark_true cp :
  is_byte_order_mark cp = true <-> cp = [ByteOrderMark].
Proof.
  destruct cp as [ | u [ | v cp ] ]; cbn [is_byte_order_mark];
    try (split; discriminate).
  rewrite Z.eqb_eq. split; congruence.
Qed.

Lemma firstn_skipn_nth {A} (l : list A) k n x :
  nth_error l k = Some x ->
  firstn (S n) (skipn k l) = x :: firstn n (skipn (S k) l).
Proof.
  revert k. induction l as [ | y l IH ]; intros k Hnth.
  - destruct k; discriminate.
  - destruct k as [ | k ].
    + injection Hnth as ->. reflexivity.
    + now apply IH.
Qed.

Lemma code_points_between_first cps s e cp :
  0 <= s < e -> nth_error cps (Z.to_nat s) = Some cp ->
  code_points_between cps s e = cp :: code_points_between cps (s + 1) e.
Proof.
  intros Hse Hnth. unfold code_points_between.
  replace (Z.to_nat (s + 1)) with (S (Z.to_nat s)) by lia.
  replace (Z.to_nat e - Z.to_nat s)%nat with (S (Z.to_nat e - S (Z.to_nat s))) by lia.
  now apply firstn_skipn_nth.
Qed.

Lemma code_points_between_none cps s e :
  0 <= s -> s = e \/ nth_error cps (Z.to_nat s) = None ->
  code_points_between cps s e = [].
Proof.
  intros Hs [ <- | Hnone ]; unfold code_points_between.
  - now rewrite Nat.sub_diag.
  - apply nth_error_None in Hnone. rewrite skipn_all2 by exact Hnone.
    apply firstn_nil.
Qed.

Lemma code_points_between_split cps s m e :
  0 <= s <= m -> m <= e ->
  code_points_between cps s m ++ code_points_between cps m e
  = code_points_between cps s e.
Proof.
  intros Hsm Hme. unfold code_points_between.
  replace (Z.to_nat e - Z.to_nat s)%nat
    with ((Z.to_nat m - Z.to_nat s) + (Z.to_nat e - Z.to_nat m))%nat by lia.
  rewrite firstn_plus, <- skipn_plus.
  now replace (Z.to_nat s + (Z.to_nat m - Z.to_nat s))%nat with (Z.to_nat m) by lia.
Qed.

Lemma without_leading_mark_same cps s e :
  0 <= s -> nth_error cps (Z.to_nat s) <> Some [ByteOrderMark] ->
  without_leading_mark (code_points_between cps s e) = code_points_between cps s e.
Proof.
  intros Hs Hfirst.
  destruct (Z.lt_ge_cases s e) as [ Hlt | Hge ].
  - destruct (nth_error cps (Z.to_nat s)) as [ cp | ] eqn:Hnth.
    + rewrite (code_points_between_first cps s e cp) by (assumption || lia).
      cbn [without_leading_mark].
      destruct (is_byte_order_mark cp) eqn:Hmark; [ | reflexivity ].
      apply is_byte_order_mark_true in Hmark. congruence.
    + now rewrite code_points_between_none by (assumption || now right).
  - unfold code_points_between.
    replace (Z.to_nat e - Z.to_nat s)%nat with O by lia. reflexivity.
Qed.

(** X13.  Under the UTF-8 code page, when each character of the document
    holds the UTF-8 bytes of a code point, [text] is the code points of the
    characters of the range, in order, unless the first of them is the byte
    order mark U+FEFF: then it is the code points after this first one.  The
    texts of adjacent ranges concatenate to the text of the joined range
    when the second range does not start with the mark. *)
Theorem text_utf8_document address g d (cps : list QString) :
  code_page d = SC_CP_UTF8 ->
  Forall2 encodes (characters d) cps ->
  (forall s e, 0 <= s <= e ->
     nth_error cps (Z.to_nat s) <> Some [ByteOrderMark] ->
     text (widget address g d) s e = concat (code_points_between cps s e))
  /\ (forall s e, 0 <= s < e ->
        nth_error cps (Z.to_nat s) = Some [ByteOrderMark] ->
        text (widget address g d) s e
        = concat (code_points_between cps (s + 1) e))
  /\ (forall s m e, 0 <= s <= m -> m <= e ->
        nth_error cps (Z.to_nat m) <> Some [ByteOrderMark] ->
        text (widget address g d) s m ++ text (widget address g d) m e
        = text (widget address g d) s e).
Proof.
  intros Hcp Henc. split; [ | split ].
  - intros s e Hse Hfirst. rewrite (text_code_points address g d cps) by assumption.
    now rewrite without_leading_mark_same by (assumption || lia).
  - intros s e Hse Hfirst. rewrite (text_code_points address g d cps) by (assumption || lia).
    rewrite (code_points_between_first cps s e [ByteOrderMark]) by assumption.
    cbn [without_leading_mark is_byte_order_mark]. now rewrite Z.eqb_refl.
  - intros s m e Hsm Hme Hfirst.
    rewrite !(text_code_points address g d cps) by (assumption || lia).
    rewrite (without_leading_mark_same cps m e) by (assumption || lia).
    rewrite <- (code_points_between_split cps s m e) by assumption.
    rewrite <- concat_app. f_equal.
    destruct (code_points_between cps s m) as [ | cp rest ] eqn:Hleft.
    + cbn [app without_leading_mark].
      now rewrite without_leading_mark_same by (assumption || lia).
    + cbn [app without_leading_mark]. now destruct (is_byte_order_mark cp).
Qed.

Lemma text_utf8_document_witness :
  text (widget 7 identity marked) 0 1 ++ text (widget 7 identity marked) 1 3
  <> text (widget 7 identity marked) 0 3
  /\ text (widget 7 identity marked) 0 2 ++ text (widget 7 identity marked) 2 3
     = text (widget 7 identity marked) 0 3
  /\ text (widget 7 identity marked) 1 3
     = concat (code_points_between [[0x61]; [0xFEFF]; [0x62]] (1 + 1) 3).
Proof.
  assert (Henc : Forall2 encodes (characters marked) [[0x61]; [0xFEFF]; [0x62]])
    by (repeat constructor; cbn; lia).
  split; [ cbn; discriminate | split ].
  - apply (proj2 (proj2 (text_utf8_document 7 identity marked _ eq_refl Henc)));
      try lia. cbn. discriminate.
  - apply (proj1 (proj2 (text_utf8_document 7 identity marked _ eq_refl Henc)));
      [ lia | reflexivity ].
Defined.

(** ** The range of a style run *)

Lemma attributes_start_shift sb style k fuel : forall pos t,
  attributes_start fuel sb style pos (t + k)
  = option_map (fun r => r + k) (attributes_start fuel sb style pos t).
Proof.
  induction fuel as [ | fuel IH ]; intros pos t; cbn [attributes_start].
  - now destruct (0 <? pos).
  - destruct (0 <? pos); [ | reflexivity ].
    destruct (negb _); [ reflexivity | ].
    replace (t + k - 1) with (t - 1 + k) by lia. apply IH.
Qed.

Lemma attributes_end_shift sb style last k fuel : forall pos t,
  attributes_end fuel sb style last pos (t + k)
  = option_map (fun r => r + k) (attributes_end fuel sb style last pos t).
Proof.
  induction fuel as [ | fuel IH ]; intros pos t; cbn [attributes_end].
  - now destruct (pos <? last).
  - destruct (pos <? last); [ | reflexivity ].
    destruct (negb _); [ reflexivity | ].
    replace (t + k + 1) with (t + 1 + k) by lia. apply IH.
Qed.

(** X14.  [attributes] returns for every offset that is an [int] below
    [INT_MAX], also a negative one or one past the end, over a document whose
    length is an [int] and with enough fuel for its characters: the range
    contains the offset, is at most one longer than the document, starts at a
    negative offset and ends one after an offset at or past the end; and both
    ends of the range are in the range of [int]. *)
Theorem attributes_returns address g d (offset : Z) (fuel : nat) :
  - INT_MAX - 1 <= offset < INT_MAX ->
  Length (characters d) <= INT_MAX ->
  (length (characters d) <= fuel)%nat ->
  exists startOffset endOffset,
    attributes fuel (widget address g d) offset = Some (startOffset, endOffset)
    /\ startOffset <= offset < endOffset
    /\ endOffset - startOffset <= Z.of_nat (length (characters d)) + 1
    /\ (offset < 0 -> startOffset = offset)
    /\ (Z.of_nat (length (characters d)) <= offset -> endOffset = offset + 1)
    /\ - INT_MAX - 1 <= startOffset
    /\ endOffset <= INT_MAX.
Proof.
  intros Hint Hlength Hfuel.
  pose proof (Length_ge_length (characters d)) as Hchars.
  set (sb := widget address g d). set (cs := characters d) in *.
  set (n := Nat.min (Z.to_nat offset) (length cs)).
  assert (Hposition : textPositionAsPosition sb offset = position_of cs n).
  { unfold sb. rewrite widget_textPositionAsPosition. fold cs. unfold n.
    destruct (Nat.le_ge_cases (Z.to_nat offset) (length cs)) as [ Hle | Hge ].
    - now rewrite Nat.min_l by exact Hle.
    - rewrite Nat.min_r by exact Hge. rewrite !position_of_all by lia. reflexivity. }
  set (style := StyleAt cs (position_of cs n)).
  destruct (attributes_start_run sb cs) with (style := style) (n := n)
    as (m1 & Hm1 & Hrun1 & _); [ reflexivity .. | unfold n; lia | ].
  destruct (attributes_end_run sb cs)
    with (style := style) (r := (length cs - Nat.min (S n) (length cs))%nat)
         (n := Nat.min (S n) (length cs))
    as (m2 & Hm2 & Hrun2 & _); [ reflexivity .. | lia | ].
  assert (Hafter : SendScintilla sb SCI_POSITIONAFTER (position_of cs n) 0
                   = position_of cs (Nat.min (S n) (length cs))).
  { change (SendScintilla sb SCI_POSITIONAFTER (position_of cs n) 0)
      with (MoveOutsideForward cs (position_of cs n + 1)).
    rewrite MoveOutsideForward_next.
    destruct (Nat.le_ge_cases (S n) (length cs)) as [ Hle | Hge ].
    - now rewrite Nat.min_l by exact Hle.
    - rewrite Nat.min_r by exact Hge. now rewrite !position_of_all by lia. }
  exists (Z.of_nat m1 + (offset - Z.of_nat n)),
         (Z.of_nat m2 + (offset + 1 - Z.of_nat (Nat.min (S n) (length cs)))).
  split; [ | unfold n, INT_MAX in *; lia ].
  unfold attributes. fold sb. rewrite Hposition.
  change (SendScintilla sb SCI_GETSTYLEAT (position_of cs n) 0) with style.
  replace offset with (Z.of_nat n + (offset - Z.of_nat n)) at 1 by lia.
  rewrite attributes_start_shift, Hrun1 by (unfold n; lia). cbn [option_map].
  rewrite Hafter.
  change (SendScintilla sb SCI_GETTEXTLENGTH 0 0) with (Length cs).
  replace (offset + 1)
    with (Z.of_nat (Nat.min (S n) (length cs))
          + (offset + 1 - Z.of_nat (Nat.min (S n) (length cs)))) at 1 by lia.
  rewrite attributes_end_shift, Hrun2 by lia. reflexivity.
Qed.

Lemma attributes_returns_witness :
  exists startOffset endOffset,
    attributes 4 (widget 7 identity two_runs) 9 = Some (startOffset, endOffset)
    /\ startOffset <= 9 < endOffset
    /\ endOffset - startOffset <= Z.of_nat (length (characters two_runs)) + 1
    /\ (9 < 0 -> startOffset = 9)
    /\ (Z.of_nat (length (characters two_runs)) <= 9 -> endOffset = 9 + 1)
    /\ - INT_MAX - 1 <= startOffset
    /\ endOffset <= INT_MAX.
Proof.
  apply attributes_returns.
  - unfold INT_MAX. lia.
  - vm_compute. discriminate.
  - cbn. lia.
Defined.

Lemma attributes_run address g d offset :
  0 <= offset < Z.of_nat (length (characters d)) ->
  exists startOffset endOffset,
    (forall fuel, (length (characters d) <= fuel)%nat ->
       attributes fuel (widget address g d) offset
       = Some (startOffset, endOffset))
    /\ style_run (widget address g d) (characters d) offset startOffset endOffset.
Proof.
  intros Hoffset.
  set (sb := widget address g d) in *. set (cs := characters d) in *.
  assert (Hn : (Z.to_nat offset < length cs)%nat) by lia.
  set (n := Z.to_nat offset) in *.
  assert (Hoff : offset = Z.of_nat n) by lia.
  pose (style := StyleAt cs (position_of cs n)).
  destruct (attributes_start_run sb cs) with (style := style) (n := n)
    as (m1 & Hm1 & Hrun1 & Hsame1 & Hmax1); [ reflexivity .. | lia | ].
  destruct (attributes_end_run sb cs)
    with (style := style) (r := (length cs - S n)%nat) (n := S n)
    as (m2 & Hm2 & Hrun2 & Hsame2 & Hmax2); [ reflexivity .. | lia | ].
  exists (Z.of_nat m1), (Z.of_nat m2). split.
  - intros fuel Hfuel. unfold attributes.
    rewrite (widget_textPositionAsPosition address g d). fold sb cs n.
    change (SendScintilla sb SCI_GETSTYLEAT (position_of cs n) 0) with style.
    rewrite Hoff at 1. rewrite Hrun1 by lia.
    change (SendScintilla sb SCI_POSITIONAFTER (position_of cs n) 0)
      with (MoveOutsideForward cs (position_of cs n + 1)).
    rewrite MoveOutsideForward_next.
    change (SendScintilla sb SCI_GETTEXTLENGTH 0 0) with (Length cs).
    replace (offset + 1) with (Z.of_nat (S n)) by lia.
    rewrite Hrun2 by lia. reflexivity.
  - assert (Hstyle : forall j, (m1 <= j < m2)%nat ->
                       StyleAt cs (position_of cs j) = style).
    { intros j Hj. destruct (Nat.lt_ge_cases j n); [ apply Hsame1; lia | ].
      destruct (Nat.eq_dec j n) as [ -> | ]; [ reflexivity | apply Hsame2; lia ]. }
    assert (Hat : character_style cs offset = Some style)
      by (rewrite Hoff; symmetry; now apply StyleAt_position_of).
    unfold style_run. rewrite Hat. repeat split.
    + lia.
    + lia.
    + intros t Ht. replace t with (Z.of_nat (Z.to_nat t)) by lia.
      rewrite <- (StyleAt_position_of cs) by lia. f_equal. apply Hstyle. lia.
    + destruct m1 as [ | m1 ]; [ now left | right ].
      destruct Hmax1 as [ Hmax1 | Hmax1 ]; [ discriminate | ].
      replace (Z.of_nat (S m1) - 1) with (Z.of_nat m1) by lia.
      rewrite <- (StyleAt_position_of cs) by lia.
      replace (S m1 - 1)%nat with m1 in Hmax1 by lia. congruence.
    + destruct Hmax2 as [ -> | Hmax2 ].
      * left. rewrite (widget_textPositionAsPosition address g d).
        fold cs. rewrite Nat2Z.id. now apply position_of_all.
      * right. destruct (Nat.eq_dec m2 (length cs)) as [ Heq | Hne ].
        -- rewrite (character_style_None cs) by lia. discriminate.
        -- rewrite <- (StyleAt_position_of cs) by lia. congruence.
Qed.

Lemma character_style_in_range cs t s :
  character_style cs t = Some s -> 0 <= t < Z.of_nat (length cs).
Proof.
  intros H. destruct (Z.lt_ge_cases t 0) as [ Hneg | Hpos ].
  - rewrite character_style_None in H by lia. discriminate.
  - destruct (Z.lt_ge_cases t (Z.of_nat (length cs))) as [ Hlt | Hge ]; [ lia | ].
    rewrite character_style_None in H by lia. discriminate.
Qed.

Lemma character_style_Some_of cs t :
  0 <= t < Z.of_nat (length cs) -> exists s, character_style cs t = Some s.
Proof.
  intros H. exists (StyleAt cs (position_of cs (Z.to_nat t))).
  rewrite StyleAt_position_of by lia. f_equal. lia.
Qed.

Lemma style_run_inside address g d offset s e sigma :
  character_style (characters d) offset = Some sigma ->
  style_run (widget address g d) (characters d) offset s e ->
  0 <= s /\ e <= Z.of_nat (length (characters d)).
Proof.
  intros Hat (Hin & Hsame & _ & _).
  pose proof (Hsame s ltac:(lia)) as Hs. rewrite Hat in Hs.
  apply character_style_in_range in Hs.
  pose proof (Hsame (e - 1) ltac:(lia)) as He. rewrite Hat in He.
  apply character_style_in_range in He. lia.
Qed.

Lemma style_run_unique address g d o1 o2 s1 e1 s2 e2 sigma :
  character_style (characters d) o1 = Some sigma ->
  style_run (widget address g d) (characters d) o1 s1 e1 ->
  s1 <= o2 < e1 ->
  style_run (widget address g d) (characters d) o2 s2 e2 ->
  s1 = s2 /\ e1 = e2.
Proof.
  intros Hat1 Hrun1 Ho2 Hrun2.
  assert (Hat2 : character_style (characters d) o2 = Some sigma)
    by (destruct Hrun1 as (_ & Hsame & _); now rewrite Hsame).
  pose proof (style_run_inside _ _ _ _ _ _ _ Hat1 Hrun1) as Hin1.
  pose proof (style_run_inside _ _ _ _ _ _ _ Hat2 Hrun2) as Hin2.
  destruct Hrun1 as (Hr1 & Hsame1 & Hstart1 & Hend1).
  destruct Hrun2 as (Hr2 & Hsame2 & Hstart2 & Hend2).
  rewrite Hat1 in *. rewrite Hat2 in *.
  assert (Hend : forall e, 0 <= e ->
            textPositionAsPosition (widget address g d) e
            = SendScintilla (widget address g d) SCI_GETTEXTLENGTH 0 0 ->
            Z.of_nat (length (characters d)) <= e).
  { intros e He Hreach. rewrite widget_textPositionAsPosition in Hreach.
    change (SendScintilla (widget address g d) SCI_GETTEXTLENGTH 0 0)
      with (Length (characters d)) in Hreach.
    destruct (Z.lt_ge_cases e (Z.of_nat (length (characters d)))) as [ Hlt | ];
      [ | assumption ].
    pose proof (position_of_lt_Length (characters d) (Z.to_nat e) ltac:(lia)). lia. }
  split.
  - destruct (Z.lt_trichotomy s1 s2) as [ Hlt | [ Heq | Hgt ] ]; [ | exact Heq | ].
    + destruct Hstart2 as [ -> | Hne ]; [ lia | ].
      exfalso. apply Hne. apply Hsame1. lia.
    + destruct Hstart1 as [ -> | Hne ]; [ lia | ].
      exfalso. apply Hne. apply Hsame2. lia.
  - assert (Hs : s1 = s2).
    { destruct (Z.lt_trichotomy s1 s2) as [ Hlt | [ Heq | Hgt ] ]; [ | exact Heq | ].
      - destruct Hstart2 as [ -> | Hne ]; [ lia | ].
        exfalso. apply Hne. apply Hsame1. lia.
      - destruct Hstart1 as [ -> | Hne ]; [ lia | ].
        exfalso. apply Hne. apply Hsame2. lia. }
    destruct (Z.lt_trichotomy e1 e2) as [ Hlt | [ Heq | Hgt ] ]; [ | exact Heq | ].
    + exfalso. destruct Hend1 as [ Hreach | Hne ].
      * apply Hend in Hreach; lia.
      * apply Hne. apply Hsame2. lia.
    + exfalso. destruct Hend2 as [ Hreach | Hne ].
      * apply Hend in Hreach; lia.
      * apply Hne. apply Hsame1. lia.
Qed.

(** X15.  [attributes] gives the same range at every offset of the range it
    returned. *)
Theorem attributes_same_in_run address g d (fuel : nat) o1 o2 startOffset endOffset :
  (length (characters d) <= fuel)%nat ->
  0 <= o1 < Z.of_nat (length (characters d)) ->
  attributes fuel (widget address g d) o1 = Some (startOffset, endOffset) ->
  startOffset <= o2 < endOffset ->
  attributes fuel (widget address g d) o2 = Some (startOffset, endOffset).
Proof.
  intros Hfuel Ho1 Hattr Ho2.
  destruct (attributes_run address g d o1 Ho1) as (s1 & e1 & Hres1 & Hrun1).
  rewrite Hres1 in Hattr by exact Hfuel. injection Hattr as <- <-.
  destruct (character_style_Some_of (characters d) o1 Ho1) as [ sigma Hat1 ].
  pose proof (style_run_inside _ _ _ _ _ _ _ Hat1 Hrun1) as Hin1.
  destruct (attributes_run address g d o2 ltac:(lia)) as (s2 & e2 & Hres2 & Hrun2).
  rewrite Hres2 by exact Hfuel.
  destruct (style_run_unique _ _ _ _ _ _ _ _ _ _ Hat1 Hrun1 Ho2 Hrun2) as [ -> -> ].
  reflexivity.
Qed.

Lemma attributes_same_in_run_witness :
  attributes 4 (widget 0%nat identity two_runs) 3 = Some (2, 4).
Proof.
  apply (attributes_same_in_run 0%nat identity two_runs 4 2 3 2 4).
  - cbn. lia.
  - cbn. lia.
  - reflexivity.
  - lia.
Defined.

(** X16.  The ranges of [attributes] tile the text: the range at the end
    offset of a range, when that is a character, starts there, and the range
    before the start offset of a range, when that is not 0, ends there. *)
Theorem attributes_runs_tile address g d (fuel : nat) offset startOffset endOffset :
  (length (characters d) <= fuel)%nat ->
  0 <= offset < Z.of_nat (length (characters d)) ->
  attributes fuel (widget address g d) offset = Some (startOffset, endOffset) ->
  (endOffset < Z.of_nat (length (characters d)) ->
   exists next,
     attributes fuel (widget address g d) endOffset = Some (endOffset, next))
  /\ (0 < startOffset ->
      exists previous,
        attributes fuel (widget address g d) (startOffset - 1)
        = Some (previous, startOffset)).
Proof.
  intros Hfuel Hoff Hattr.
  destruct (attributes_run address g d offset Hoff) as (s1 & e1 & Hres1 & Hrun1).
  rewrite Hres1 in Hattr by exact Hfuel. injection Hattr as <- <-.
  destruct (character_style_Some_of (characters d) offset Hoff) as [ sigma Hat ].
  pose proof (style_run_inside _ _ _ _ _ _ _ Hat Hrun1) as Hin1.
  destruct Hrun1 as (Hr1 & Hsame1 & Hstart1 & Hend1).
  split.
  - intros Hlast.
    destruct (attributes_run address g d e1 ltac:(lia)) as (s2 & e2 & Hres2 & Hrun2).
    rewrite Hres2 by exact Hfuel. exists e2. f_equal. f_equal.
    destruct Hrun2 as (Hr2 & Hsame2 & Hstart2 & Hend2).
    destruct (Z.eq_dec s2 e1) as [ Heq | Hne ]; [ exact Heq | exfalso ].
    destruct Hend1 as [ Hreach | Hdiffer ].
    + rewrite widget_textPositionAsPosition in Hreach.
      change (SendScintilla (widget address g d) SCI_GETTEXTLENGTH 0 0)
        with (Length (characters d)) in Hreach.
      pose proof (position_of_lt_Length (characters d) (Z.to_nat e1) ltac:(lia)).
      lia.
    + apply Hdiffer. rewrite <- (Hsame2 (e1 - 1)) by lia. apply Hsame1. lia.
  - intros Hfirst.
    destruct (attributes_run address g d (s1 - 1) ltac:(lia))
      as (s2 & e2 & Hres2 & Hrun2).
    rewrite Hres2 by exact Hfuel. exists s2. f_equal. f_equal.
    destruct Hrun2 as (Hr2 & Hsame2 & Hstart2 & Hend2).
    destruct (Z.eq_dec e2 s1) as [ Heq | Hne ]; [ exact Heq | exfalso ].
    destruct Hstart1 as [ -> | Hdiffer ]; [ lia | ].
    apply Hdiffer. rewrite <- (Hsame1 s1) by lia. symmetry. apply Hsame2. lia.
Qed.

Lemma attributes_runs_tile_witness :
  (2 < Z.of_nat (length (characters two_runs)) ->
   exists next, attributes 4 (widget 0%nat identity two_runs) 2 = Some (2, next))
  /\ (0 < 0 ->
      exists previous,
        attributes 4 (widget 0%nat identity two_runs) (0 - 1) = Some (previous, 0)).
Proof.
  apply (attributes_runs_tile 0%nat identity two_runs 4 1 0 2).
  - cbn. lia.
  - cbn. lia.
  - reflexivity.
Defined.

(** ** The attribute string *)

Lemma replace_app text text' before after :
  replace (text ++ text') before after
  = replace text before after ++ replace text' before after.
Proof. apply flat_map_app. Qed.

Lemma escape_family_app a b :
  escape_family (a ++ b) = escape_family a ++ escape_family b.
Proof. unfold escape_family. cbv zeta. now rewrite !replace_app. Qed.

Lemma escape_family_unit u :
  escape_family [u] = if is_special u then [92; u] else [u].
Proof.
  unfold escape_family, is_special, replace. cbv zeta.
  cbn [flat_map app].
  destruct (Z.eqb_spec u 92) as [ -> | H92 ]; [ reflexivity | ].
  cbn [flat_map app orb].
  destruct (Z.eqb_spec u 58) as [ -> | H58 ]; [ reflexivity | ].
  cbn [flat_map app orb].
  destruct (Z.eqb_spec u 44) as [ -> | H44 ]; [ reflexivity | ].
  cbn [flat_map app orb].
  destruct (Z.eqb_spec u 61) as [ -> | H61 ]; [ reflexivity | ].
  cbn [flat_map app orb].
  destruct (Z.eqb_spec u 59) as [ -> | H59 ]; [ reflexivity | ].
  cbn [flat_map app orb].
  destruct (Z.eqb_spec u 34) as [ -> | H34 ]; reflexivity.
Qed.

Lemma escape_family_cons u family :
  escape_family (u :: family)
  = (if is_special u then [92; u] else [u]) ++ escape_family family.
Proof.
  change (u :: family) with ([u] ++ family).
  now rewrite escape_family_app, escape_family_unit.
Qed.

(** X17.  The six replacements of the font family in [attributes] amount to
    one pass that puts a backslash before each backslash, colon, comma,
    equals sign, semicolon and quote; dropping each escaping backslash gives
    the family back. *)
Theorem escape_family_one_pass (family : QString) :
  escape_family family
  = flat_map (fun u => if is_special u then [92; u] else [u]) family
  /\ unescape (escape_family family) = family.
Proof.
  split.
  - induction family as [ | u family IH ]; [ reflexivity | ].
    rewrite escape_family_cons, IH. reflexivity.
  - induction family as [ | u family IH ]; [ reflexivity | ].
    rewrite escape_family_cons. destruct (is_special u) eqn:Hs; cbn [app unescape].
    + now rewrite IH.
    + unfold is_special in Hs. apply orb_false_iff in Hs. destruct Hs as [ Hs _ ].
      apply orb_false_iff in Hs. destruct Hs as [ Hs _ ].
      apply orb_false_iff in Hs. destruct Hs as [ Hs _ ].
      apply orb_false_iff in Hs. destruct Hs as [ Hs _ ].
      apply orb_false_iff in Hs. destruct Hs as [ Hs _ ].
      rewrite Hs. now rewrite IH.
Qed.

Lemma uint_no_percent d :
  no_percent (QLatin1String (DecimalString.NilEmpty.string_of_uint d)).
Proof.
  unfold no_percent, QLatin1String, percent.
  induction d; cbn; constructor; try assumption; discriminate.
Qed.

Lemma number_no_percent n : no_percent (number n).
Proof.
  unfold number. destruct (Z.to_int n) as [ d | d ]; cbn [DecimalString.NilZero.string_of_int].
  - destruct d; try apply uint_no_percent. repeat constructor. discriminate.
  - unfold no_percent, QLatin1String. cbn. constructor; [ discriminate | ].
    destruct d; try apply uint_no_percent. repeat constructor. discriminate.
Qed.

Lemma pieces_prefix pre rest :
  no_percent pre -> pieces (pre ++ rest) = map Plain pre ++ pieces rest.
Proof.
  induction 1 as [ | u pre Hu _ IH ]; [ reflexivity | ].
  cbn [app map pieces]. rewrite (proj2 (Z.eqb_neq u percent) Hu). now rewrite IH.
Qed.

Lemma lowest_plain pre ps : lowest (map Plain pre ++ ps) = lowest ps.
Proof. induction pre as [ | u pre IH ]; [ reflexivity | exact IH ]. Qed.

Lemma arg_prefix pre rest a :
  no_percent pre -> arg (pre ++ rest) a = pre ++ arg rest a.
Proof.
  intros Hpre. unfold arg. rewrite pieces_prefix, lowest_plain by exact Hpre.
  destruct (lowest (pieces rest)) as [ n | ]; [ | reflexivity ].
  rewrite flat_map_app. f_equal.
  clear. induction pre as [ | u pre IH ]; [ reflexivity | ].
  cbn [map flat_map app]. now rewrite IH.
Qed.

Lemma colourAsRGB_components a b c :
  arg (arg (arg (QLatin1String "rgb(%1,%2,%3)"%string) (number a)) (number b))
    (number c)
  = QLatin1String "rgb("%string ++ number a ++ [44] ++ number b ++ [44]
      ++ number c ++ [41].
Proof.
  assert (Hrgb : no_percent (QLatin1String "rgb("%string))
    by (repeat constructor; discriminate).
  assert (Hcomma : no_percent [44]) by (repeat constructor; discriminate).
  assert (Hfirst : arg (QLatin1String "rgb(%1,%2,%3)"%string) (number a)
                   = QLatin1String "rgb("%string
                       ++ number a ++ [44] ++ QLatin1String "%2,%3)"%string).
  { change (QLatin1String "rgb(%1,%2,%3)"%string)
      with (QLatin1String "rgb("%string ++ QLatin1String "%1,%2,%3)"%string).
    now rewrite (arg_prefix (QLatin1String "rgb("%string)) by exact Hrgb. }
  rewrite Hfirst.
  assert (Hsecond : arg (QLatin1String "rgb("%string
                           ++ number a ++ [44] ++ QLatin1String "%2,%3)"%string)
                      (number b)
                    = QLatin1String "rgb("%string ++ number a ++ [44]
                        ++ number b ++ [44] ++ QLatin1String "%3)"%string).
  { rewrite (arg_prefix (QLatin1String "rgb("%string)) by exact Hrgb.
    rewrite (arg_prefix (number a)) by apply number_no_percent.
    now rewrite (arg_prefix [44]) by exact Hcomma. }
  rewrite Hsecond.
  rewrite (arg_prefix (QLatin1String "rgb("%string)) by exact Hrgb.
  rewrite (arg_prefix (number a)) by apply number_no_percent.
  rewrite (arg_prefix [44]) by exact Hcomma.
  rewrite (arg_prefix (number b)) by apply number_no_percent.
  now rewrite (arg_prefix [44]) by exact Hcomma.
Qed.

(** X18.  [colourAsRGB] of the colour with the bytes r, g, b from low to
    high, whatever lies above them, is rgb(r,g,b) with each in decimal. *)
Theorem colourAsRGB_decimal (r g b high : Z) :
  0 <= r < 256 -> 0 <= g < 256 -> 0 <= b < 256 ->
  colourAsRGB (r + 256 * g + 65536 * b + 16777216 * high)
  = QLatin1String "rgb("%string ++ number r ++ [44] ++ number g ++ [44]
      ++ number b ++ [41].
Proof.
  intros Hr Hg Hb. unfold colourAsRGB.
  set (colour := r + 256 * g + 65536 * b + 16777216 * high).
  change 0xff with (Z.ones 8). rewrite !Z.land_ones, !Z.shiftr_div_pow2 by lia.
  change (2 ^ 8) with 256. change (2 ^ 16) with 65536.
  replace (colour mod 256) with r by (subst colour; arith).
  replace ((colour / 256) mod 256) with g by (subst colour; arith).
  replace ((colour / 65536) mod 256) with b by (subst colour; arith).
  apply colourAsRGB_components.
Qed.

Lemma colourAsRGB_decimal_witness :
  colourAsRGB (255 + 256 * 128 + 65536 * 0 + 16777216 * (-1))
  = QLatin1String "rgb("%string ++ number 255 ++ [44] ++ number 128 ++ [44]
      ++ number 0 ++ [41].
Proof. apply colourAsRGB_decimal; lia. Defined.

Lemma entries_from_safe pre : forall entry rest,
  safe pre -> entries_from entry (pre ++ rest) = entries_from (entry ++ pre) rest.
Proof.
  induction pre as [ | u pre IH ]; intros entry rest Hsafe.
  - now rewrite app_nil_r.
  - inversion Hsafe as [ | ? ? [ H92 H59 ] Hpre ]; subst.
    cbn [app entries_from].
    rewrite (proj2 (Z.eqb_neq u 92) H92), (proj2 (Z.eqb_neq u 59) H59).
    rewrite IH by exact Hpre. now rewrite <- app_assoc.
Qed.

Lemma entries_from_escaped family_ : forall entry rest,
  entries_from entry (escape_family family_ ++ rest)
  = entries_from (entry ++ escape_family family_) rest.
Proof.
  induction family_ as [ | u family_ IH ]; intros entry rest.
  - now rewrite app_nil_r.
  - rewrite escape_family_cons. destruct (is_special u) eqn:Hs.
    + cbn [app entries_from]. rewrite IH. now rewrite <- app_assoc.
    + unfold is_special in Hs.
      repeat (apply orb_false_iff in Hs; destruct Hs as [ Hs ? ]).
      cbn [app entries_from].
      rewrite Hs. replace (u =? 59) with false by congruence.
      rewrite IH. now rewrite <- app_assoc.
Qed.

Lemma uint_chars d :
  Forall (fun u => 45 <= u <= 57)
    (QLatin1String (DecimalString.NilEmpty.string_of_uint d)).
Proof.
  unfold QLatin1String. induction d; cbn; constructor; try assumption; lia.
Qed.

Lemma number_chars n : Forall (fun u => 45 <= u <= 57) (number n).
Proof.
  unfold number. destruct (Z.to_int n) as [ d | d ];
    cbn [DecimalString.NilZero.string_of_int].
  - destruct d; try apply uint_chars. cbn. constructor; [ lia | constructor ].
  - unfold QLatin1String. cbn. constructor; [ lia | ].
    destruct d; try apply uint_chars. cbn. constructor; [ lia | constructor ].
Qed.

Lemma number_safe n : safe (number n).
Proof.
  apply Forall_impl with (2 := number_chars n). intros u Hu. split; lia.
Qed.

Lemma safe_app a b : safe a -> safe b -> safe (a ++ b).
Proof. intros Ha Hb. apply Forall_app. now split. Qed.

Ltac safe_literal := repeat constructor; discriminate.

Lemma colourAsRGB_safe colour : safe (colourAsRGB colour).
Proof.
  unfold colourAsRGB. rewrite colourAsRGB_components.
  repeat apply safe_app; try apply number_safe; safe_literal.
Qed.

Lemma arg_pt n : arg (QLatin1String "%1pt"%string) (number n) = number n ++ [112; 116].
Proof. reflexivity. Qed.

Lemma entries_from_plain u entry rest :
  u <> 92 -> u <> 59 ->
  entries_from entry (u :: rest) = entries_from (entry ++ [u]) rest.
Proof.
  intros H92 H59. cbn [entries_from].
  rewrite (proj2 (Z.eqb_neq u 92) H92), (proj2 (Z.eqb_neq u 59) H59).
  destruct rest; reflexivity.
Qed.

Lemma entries_from_entry name value rest :
  safe (QLatin1String name) -> safe value ->
  entries (addAttribute [] name value ++ rest)
  = (QLatin1String name ++ [58] ++ value) :: entries rest.
Proof.
  intros Hname Hvalue. unfold entries, addAttribute. cbn [app].
  rewrite <- !app_assoc. rewrite entries_from_safe by exact Hname.
  cbn [app]. rewrite entries_from_plain by discriminate.
  rewrite entries_from_safe by exact Hvalue.
  cbn [entries_from Z.eqb Pos.eqb]. now rewrite <- app_assoc.
Qed.

Lemma addAttribute_app attrs name value :
  addAttribute attrs name value = attrs ++ addAttribute [] name value.
Proof. unfold addAttribute. cbn [app]. now rewrite <- !app_assoc. Qed.

Lemma entries_from_family family_ rest :
  entries (addAttribute [] "font-familly"%string
             ([34] ++ escape_family family_ ++ [34]) ++ rest)
  = (QLatin1String "font-familly"%string ++ [58]
       ++ [34] ++ escape_family family_ ++ [34]) :: entries rest.
Proof.
  unfold entries, addAttribute. cbn [app].
  rewrite <- !app_assoc. rewrite entries_from_safe by safe_literal.
  cbn [app]. rewrite !entries_from_plain by discriminate.
  rewrite <- !app_assoc. rewrite entries_from_escaped.
  cbn [app]. rewrite entries_from_plain by discriminate.
  cbn [entries_from Z.eqb Pos.eqb]. now rewrite <- !app_assoc.
Qed.

(** X19.  The attribute string splits at its unescaped semicolons into the
    entries background-color, color, font-familly, font-size, font-style and
    font-weight, in this order, followed by text-underline-type exactly when
    the style is underlined; whatever the family holds, it stays within its
    entry. *)
Theorem attributes_text_entries (sb : StyleAnswers) (style_ : Z) :
  entries (attributes_text sb style_)
  = [ QLatin1String "background-color:"%string
        ++ colourAsRGB (SCI_STYLEGETBACK sb style_);
      QLatin1String "color:"%string ++ colourAsRGB (SCI_STYLEGETFORE sb style_);
      QLatin1String "font-familly:"%string
        ++ [34] ++ escape_family (family (fontForStyle sb style_)) ++ [34];
      QLatin1String "font-size:"%string
        ++ number (pointSize (fontForStyle sb style_)) ++ QLatin1String "pt"%string;
      QLatin1String "font-style:"%string
        ++ QLatin1String
             (match style (fontForStyle sb style_) with
              | StyleItalic => "italic"
              | StyleOblique => "oblique"
              | StyleNormal => "normal"
              end)%string;
      QLatin1String "font-weight:"%string
        ++ QLatin1String
             (if Normal <? weight (fontForStyle sb style_)
              then "bold" else "normal")%string ]
    ++ (if SCI_STYLEGETUNDERLINE sb style_ =? 0 then []
        else [ QLatin1String "text-underline-type:single"%string ]).
Proof.
  unfold attributes_text. cbv zeta.
  assert (Hstyle : safe (QLatin1String
            (match style (fontForStyle sb style_) with
             | StyleItalic => "italic"
             | StyleOblique => "oblique"
             | StyleNormal => "normal"
             end)%string))
    by (destruct (style (fontForStyle sb style_)); safe_literal).
  assert (Hweight : safe (QLatin1String
            (if Normal <? weight (fontForStyle sb style_)
             then "bold" else "normal")%string))
    by (destruct (Normal <? weight (fontForStyle sb style_)); safe_literal).
  assert (Hsize : safe (arg (QLatin1String "%1pt"%string)
                          (number (pointSize (fontForStyle sb style_)))))
    by (rewrite arg_pt; apply safe_app; [ apply number_safe | safe_literal ]).
  set (attrs6 :=
         addAttribute
           (addAttribute
              (addAttribute
                 (addAttribute
                    (addAttribute
                       (addAttribute [] "background-color"%string
                          (colourAsRGB (SCI_STYLEGETBACK sb style_)))
                       "color"%string (colourAsRGB (SCI_STYLEGETFORE sb style_)))
                    "font-familly"%string
                    ([34] ++ escape_family (family (fontForStyle sb style_)) ++ [34]))
                 "font-size"%string
                 (arg (QLatin1String "%1pt"%string)
                    (number (pointSize (fontForStyle sb style_)))))
              "font-style"%string
              (QLatin1String
                 (match style (fontForStyle sb style_) with
                  | StyleItalic => "italic"
                  | StyleOblique => "oblique"
                  | StyleNormal => "normal"
                  end)%string))
           "font-weight"%string
           (QLatin1String
              (if Normal <? weight (fontForStyle sb style_)
               then "bold" else "normal")%string)).
  assert (Hsix : forall rest,
            entries (attrs6 ++ rest)
            = [ QLatin1String "background-color:"%string
                  ++ colourAsRGB (SCI_STYLEGETBACK sb style_);
                QLatin1String "color:"%string
                  ++ colourAsRGB (SCI_STYLEGETFORE sb style_);
                QLatin1String "font-familly:"%string
                  ++ [34] ++ escape_family (family (fontForStyle sb style_)) ++ [34];
                QLatin1String "font-size:"%string
                  ++ number (pointSize (fontForStyle sb style_))
                  ++ QLatin1String "pt"%string;
                QLatin1String "font-style:"%string
                  ++ QLatin1String
                       (match style (fontForStyle sb style_) with
                        | StyleItalic => "italic"
                        | StyleOblique => "oblique"
                        | StyleNormal => "normal"
                        end)%string;
                QLatin1String "font-weight:"%string
                  ++ QLatin1String
                       (if Normal <? weight (fontForStyle sb style_)
                        then "bold" else "normal")%string ]
              ++ entries rest).
  { intros rest. unfold attrs6.
    rewrite (addAttribute_app _ "font-weight"%string).
    rewrite (addAttribute_app _ "font-style"%string).
    rewrite (addAttribute_app _ "font-size"%string).
    rewrite (addAttribute_app _ "font-familly"%string).
    rewrite (addAttribute_app _ "color"%string).
    rewrite <- !app_assoc.
    rewrite entries_from_entry by (safe_literal || apply colourAsRGB_safe).
    rewrite entries_from_entry by (safe_literal || apply colourAsRGB_safe).
    rewrite entries_from_family.
    rewrite entries_from_entry by (safe_literal || exact Hsize).
    rewrite entries_from_entry by (safe_literal || exact Hstyle).
    rewrite entries_from_entry by (safe_literal || exact Hweight).
    rewrite arg_pt. reflexivity. }
  destruct (SCI_STYLEGETUNDERLINE sb style_ =? 0); cbn [negb].
  - rewrite <- (app_nil_r attrs6). rewrite Hsix. reflexivity.
  - rewrite addAttribute_app, Hsix.
    rewrite <- (app_nil_r (addAttribute [] _ _)).
    rewrite entries_from_entry by safe_literal. reflexivity.
Qed.

(** ** The editing members *)

Lemma textAsBytes_nil sb : textAsBytes sb [] = [].
Proof. unfold textAsBytes. now destruct (_ =? _). Qed.

Lemma toUtf8_nul_within n : forall a b,
  (length a <= n)%nat -> toUtf8 (a ++ 0 :: b) = toUtf8 a ++ 0 :: toUtf8 b.
Proof.
  induction n as [ | n IH ]; intros a b Hlen.
  - destruct a; [ reflexivity | cbn [length] in Hlen; lia ].
  - destruct a as [ | u a ]; [ reflexivity | ].
    cbn [length] in Hlen. cbn [app toUtf8].
    destruct (u <? 0x80); [ now rewrite IH by lia | ].
    destruct (u <? 0x800); [ now rewrite IH by lia | ].
    destruct (is_surrogate u); [ | now rewrite IH by lia ].
    destruct a as [ | l a ]; cbn [app].
    + now rewrite andb_false_r.
    + cbn [length] in Hlen.
      destruct (is_high_surrogate u && is_low_surrogate l).
      * now rewrite IH by lia.
      * change (l :: a ++ 0 :: b) with ((l :: a) ++ 0 :: b).
        now rewrite IH by (cbn [length]; lia).
Qed.

Lemma toUtf8_nonzero_within n : forall a,
  (length a <= n)%nat ->
  Forall (fun u => u <> 0) a -> Forall (fun b => b <> 0) (toUtf8 a).
Proof.
  induction n as [ | n IH ]; intros a Hlen Ha.
  - destruct a; [ constructor | cbn [length] in Hlen; lia ].
  - destruct a as [ | u a ]; [ constructor | ].
    cbn [length] in Hlen. inversion Ha as [ | ? ? Hu Ha' ]; subst.
    cbn [toUtf8].
    destruct (Z.ltb_spec u 0x80); [ constructor; [ exact Hu | apply IH; [ lia | exact Ha' ] ] | ].
    destruct (Z.ltb_spec u 0x800).
    { repeat (constructor; [ arith | ]). apply IH; [ lia | exact Ha' ]. }
    destruct (is_surrogate u) eqn:Hs.
    + destruct a as [ | l a ].
      * repeat constructor. discriminate.
      * cbn [length] in Hlen.
        destruct (is_high_surrogate u && is_low_surrogate l) eqn:Hpair.
        -- apply andb_true_iff in Hpair. destruct Hpair as [ Hh Hl ].
           unfold is_high_surrogate in Hh. unfold is_low_surrogate in Hl.
           inversion Ha' as [ | ? ? _ Ha'' ]; subst.
           repeat (constructor; [ arith | ]). apply IH; [ lia | exact Ha'' ].
        -- constructor; [ discriminate | ]. apply IH; [ cbn [length]; lia | exact Ha' ].
    + repeat (constructor; [ arith | ]). apply IH; [ lia | exact Ha' ].
Qed.

Lemma constData_cut pre rest :
  Forall (fun b => b <> 0) pre ->
  constData (pre ++ 0 :: rest) = pre /\ constData pre = pre.
Proof.
  induction 1 as [ | b pre Hb _ [ IH1 IH2 ] ]; [ split; reflexivity | ].
  cbn [app constData]. rewrite (proj2 (Z.eqb_neq b 0) Hb). now rewrite IH1, IH2.
Qed.

Lemma textAsBytes_cut sb a b :
  Forall (fun u => u <> 0) a ->
  constData (textAsBytes sb (a ++ 0 :: b)) = constData (textAsBytes sb a).
Proof.
  intros Ha. unfold textAsBytes. destruct (_ =? _).
  - rewrite (toUtf8_nul_within (length a)) by lia.
    pose proof (toUtf8_nonzero_within (length a) a (le_n _) Ha) as Hbytes.
    destruct (constData_cut (toUtf8 a) (toUtf8 b) Hbytes) as [ -> -> ]. reflexivity.
  - unfold toLatin1. rewrite map_app. cbn [map].
    assert (Hbytes : Forall (fun b => b <> 0)
                       (map (fun u => if u <? 256 then u else question_mark) a)).
    { apply Forall_map. apply Forall_impl with (2 := Ha). intros u Hu.
      destruct (u <? 256); [ exact Hu | discriminate ]. }
    change (if 0 <? 256 then 0 else question_mark) with 0.
    destruct (constData_cut _ (map (fun u => if u <? 256 then u else question_mark) b)
                Hbytes) as [ -> -> ].
    reflexivity.
Qed.

(** X20.  [insertText] and [replaceText] pass the text up to its first NUL
    character: what follows the NUL does not reach the engine. *)
Theorem insertText_cut_at_nul (E : Editor) (w : Widget E) (a b : QString) :
  Forall (fun u => u <> 0) a ->
  (forall offset,
     insertText E w offset (a ++ 0 :: b) = insertText E w offset a)
  /\ (forall startOffset endOffset,
        replaceText E w startOffset endOffset (a ++ 0 :: b)
        = replaceText E w startOffset endOffset a).
Proof.
  intros Ha. split; intros; unfold insertText, replaceText; cbv zeta;
    now rewrite textAsBytes_cut by exact Ha.
Qed.

Lemma insertText_cut_at_nul_witness :
  (forall offset,
     insertText (recorder (widget 7 identity accented)) [] offset ([0x61; 0xE9] ++ 0 :: [0x62])
     = insertText (recorder (widget 7 identity accented)) [] offset [0x61; 0xE9])
  /\ (forall startOffset endOffset,
        replaceText (recorder (widget 7 identity accented)) [] startOffset endOffset
          ([0x61; 0xE9] ++ 0 :: [0x62])
        = replaceText (recorder (widget 7 identity accented)) [] startOffset endOffset
            [0x61; 0xE9]).
Proof.
  apply (insertText_cut_at_nul (recorder (widget 7 identity accented)) []).
  repeat constructor; discriminate.
Defined.

(** X21.  [deleteText] of a range is [replaceText] of the range by the empty
    text. *)
Theorem deleteText_is_replaceText (E : Editor) (w : Widget E)
    (startOffset endOffset : Z) :
  deleteText E w startOffset endOffset = replaceText E w startOffset endOffset [].
Proof.
  unfold deleteText, replaceText. cbv zeta. now rewrite textAsBytes_nil.
Qed.
